(** * Markdown table reflower: [skills/md-tables/fix-md-tables.py]

    A shallow embedding of the table fixer (row recognition, cell
    splitting, column alignment, blank-line enforcement) together with
    the properties its specification states about it.

    Python strings are sequences of Unicode code points; a character is
    modelled as its code point (an [N]) and a string as a list of
    characters.  Operations that can raise in Python ([max] of an empty
    sequence, indexing a list) return [option], and the functions that
    use them live in the option monad. *)

From Equations Require Import Equations.
From Stdlib Require Import String Ascii.
From Stdlib Require Import List Arith NArith ZArith Bool Lia.
Import ListNotations.

(** ** Python strings *)

Module Py.

Definition char := N.
Definition str := list char.

(** A literal: the code points of an ASCII string. *)
Definition lit (s : string) : str :=
  List.map N_of_ascii (list_ascii_of_string s).

Definition pipe : char := 124%N.
Definition dash : char := 45%N.
Definition colon : char := 58%N.
Definition space : char := 32%N.
Definition newline : char := 10%N.

(** The characters [str.strip()] removes: those for which
    [str.isspace] holds. *)
Definition is_space (c : char) : bool :=
  ((9 <=? c) && (c <=? 13) || (28 <=? c) && (c <=? 32)
   || (c =? 133) || (c =? 160) || (c =? 5760)
   || (8192 <=? c) && (c <=? 8202)
   || (c =? 8232) || (c =? 8233) || (c =? 8239) || (c =? 8287)
   || (c =? 12288))%N.

Fixpoint lstrip (s : str) : str :=
  match s with
  | [] => []
  | c :: s' => if is_space c then lstrip s' else s
  end.

Definition rstrip (s : str) : str := rev (lstrip (rev s)).

(** [s.strip()] *)
Definition strip (s : str) : str := rstrip (lstrip s).

(** [s.split(sep)] for a one-character separator: always at least one
    segment, one more than the number of separators. *)
Fixpoint split (sep : char) (s : str) : list str :=
  match s with
  | [] => [[]]
  | c :: s' =>
      if (c =? sep)%N then [] :: split sep s'
      else match split sep s' with
           | seg :: segs => (c :: seg) :: segs
           | [] => [[c]]
           end
  end.

(** [sep.join(parts)] *)
Fixpoint join (sep : str) (parts : list str) : str :=
  match parts with
  | [] => []
  | p :: ps =>
      match ps with
      | [] => p
      | _ :: _ => p ++ sep ++ join sep ps
      end
  end.

(** [s.startswith(prefix)] *)
Fixpoint startswith (s prefix : str) : bool :=
  match prefix, s with
  | [], _ => true
  | _ :: _, [] => false
  | p :: prefix', c :: s' => (c =? p)%N && startswith s' prefix'
  end.

(** [s.endswith(suffix)] *)
Definition endswith (s suffix : str) : bool :=
  startswith (rev s) (rev suffix).

(** [s * n]: the empty string when [n] is not positive. *)
Definition mul (s : str) (n : Z) : str :=
  concat (repeat s (Z.to_nat n)).

(** [s.ljust(width)]: [s] itself when it is already that long. *)
Definition ljust (s : str) (width : nat) : str :=
  s ++ repeat space (width - length s).

(** [all(c in chars for c in s)] *)
Definition all_in (chars s : str) : bool :=
  forallb (fun c => existsb (N.eqb c) chars) s.

(** [l[1:-1]] *)
Definition slice_1_m1 {A : Type} (l : list A) : list A :=
  removelast (tl l).

(** [max(l)]: raises [ValueError] on an empty sequence. *)
Definition max (l : list nat) : option nat :=
  match l with
  | [] => None
  | x :: xs => Some (fold_left Nat.max xs x)
  end.

(** [l[i]] for [i >= 0]: raises [IndexError] out of range. *)
Definition index {A : Type} (l : list A) (i : nat) : option A :=
  nth_error l i.

(** [enumerate(l)] *)
Definition enumerate {A : Type} (l : list A) : list (nat * A) :=
  combine (seq 0 (length l)) l.

End Py.

Import Py.

(** ** The error monad *)

Definition bind {A B : Type} (m : option A) (k : A -> option B) : option B :=
  match m with
  | Some a => k a
  | None => None
  end.

Notation "x <- m ;; k" := (bind m (fun x => k))
  (at level 61, m at next level, right associativity).

(** A [for] loop that appends one value per element. *)
Fixpoint mapM {A B : Type} (f : A -> option B) (l : list A) : option (list B) :=
  match l with
  | [] => Some []
  | a :: l' => b <- f a ;; bs <- mapM f l' ;; Some (b :: bs)
  end.

(** A [for] loop that updates an accumulator. *)
Fixpoint foldM {A S : Type} (f : S -> A -> option S) (l : list A) (s : S)
  : option S :=
  match l with
  | [] => Some s
  | a :: l' => s' <- f s a ;; foldM f l' s'
  end.

(** ** The program *)

(** [is_table_row(line)] *)
Definition is_table_row (line : str) : bool :=
  let stripped := strip line in
  startswith stripped (lit "|") && endswith stripped (lit "|").

(** [is_separator_row(line)] *)
Definition is_separator_row (line : str) : bool :=
  let stripped := strip line in
  if negb (is_table_row line) then false
  else
    let content := slice_1_m1 stripped in
    all_in (lit "-|: ") content.

(** The separator-style test of [align_table]:
    [all(c in "-:" for c in cell)]. *)
Definition is_sep_cell (cell : str) : bool := all_in (lit "-:") cell.

(** One iteration of the first loop of [align_table]: the cells of a
    line. *)
Definition parse_row (line : str) : list str :=
  let stripped := strip line in
  let cells := slice_1_m1 (split pipe stripped) in
  List.map strip cells.

(** [while len(row) < num_cols: row.append("")] *)
Definition pad_row (num_cols : nat) (row : list str) : list str :=
  row ++ repeat [] (num_cols - length row).

(** The body of [for col in range(num_cols)]: the width of one column. *)
Definition col_width (rows : list (list str)) (col : nat) : option nat :=
  foldM (fun max_width row =>
           if col <? length row then
             cell <- index row col ;;
             if is_sep_cell cell then Some (Nat.max max_width 3)
             else Some (Nat.max max_width (length cell))
           else Some max_width)
        rows 0.

(** The body of [for col_idx, cell in enumerate(row)], given [width]. *)
Definition render_cell (cell : str) (width : nat) : str :=
  if is_sep_cell cell then
    if startswith cell (lit ":") && endswith cell (lit ":") then
      lit ":" ++ mul (lit "-") (Z.of_nat width - 2) ++ lit ":"
    else if startswith cell (lit ":") then
      lit ":" ++ mul (lit "-") (Z.of_nat width - 1)
    else if endswith cell (lit ":") then
      mul (lit "-") (Z.of_nat width - 1) ++ lit ":"
    else
      mul (lit "-") (Z.of_nat width)
  else
    ljust cell width.

(** The list [cells] built for one row. *)
Definition render_cells (col_widths : list nat) (row : list str)
  : option (list str) :=
  mapM (fun ic : nat * str =>
          let (col_idx, cell) := ic in
          width <- index col_widths col_idx ;;
          Some (render_cell cell width))
       (enumerate row).

(** ["| " + " | ".join(cells) + " |"] *)
Definition join_cells (cells : list str) : str :=
  lit "| " ++ join (lit " | ") cells ++ lit " |".

(** The intermediate values of [align_table] on a non-empty block. *)
Definition parse_rows (table_lines : list str) : list (list str) :=
  List.map parse_row table_lines.

Definition num_cols_of (rows : list (list str)) : option nat :=
  Py.max (List.map (@length str) rows).

Definition col_widths_of (num_cols : nat) (rows : list (list str))
  : option (list nat) :=
  mapM (col_width rows) (seq 0 num_cols).

(** [align_table(table_lines)] *)
Definition align_table (table_lines : list str) : option (list str) :=
  match table_lines with
  | [] => Some table_lines
  | _ :: _ =>
      let rows := parse_rows table_lines in
      match rows with
      | [] => Some table_lines
      | _ :: _ =>
          num_cols <- num_cols_of rows ;;
          let rows := List.map (pad_row num_cols) rows in
          col_widths <- col_widths_of num_cols rows ;;
          mapM (fun row =>
                  cells <- render_cells col_widths row ;;
                  Some (join_cells cells))
               rows
      end
  end.

(** [result and result[-1].strip() != ""] *)
Definition blank_needed_before (result : list str) : bool :=
  match result with
  | [] => false
  | _ :: _ => negb (length (strip (last result [])) =? 0)
  end.

(** [i < len(lines) and lines[i].strip() != ""], on the lines from
    index [i] on. *)
Definition blank_needed_after (rest : list str) : bool :=
  match rest with
  | [] => false
  | next :: _ => negb (length (strip next) =? 0)
  end.

(** The inner [while] loop: the table rows at the front of the
    remaining lines, and what follows them. *)
Fixpoint collect_table (lines : list str) : list str * list str :=
  match lines with
  | [] => ([], [])
  | line :: rest =>
      if is_table_row line then
        let (table_lines, rest') := collect_table rest in
        (line :: table_lines, rest')
      else ([], lines)
  end.

Lemma collect_table_length (lines : list str) :
  length (snd (collect_table lines)) <= length lines.
Proof.
  induction lines as [|line rest IH]; simpl; [lia|].
  destruct (is_table_row line); simpl; [|lia].
  destruct (collect_table rest); simpl in *; lia.
Qed.

(** The outer [while i < len(lines)] loop; [lines] is [lines[i:]]. *)
Equations? fix_loop (lines : list str) (result : list str)
  : option (list str) by wf (length lines) lt :=
  fix_loop [] result := Some result;
  fix_loop (line :: rest) result with is_table_row line => {
    | true :=
        let table_lines := line :: fst (collect_table rest) in
        let rest' := snd (collect_table rest) in
        let result1 :=
          if blank_needed_before result then result ++ [[]] else result in
        match align_table table_lines with
        | Some aligned =>
            let result2 := result1 ++ aligned in
            let result3 :=
              if blank_needed_after rest' then result2 ++ [[]] else result2 in
            fix_loop rest' result3
        | None => None
        end;
    | false := fix_loop rest (result ++ [line]) }.
Proof.
  pose proof (collect_table_length rest). subst rest'. simpl. lia.
Qed.

(** [fix_tables_in_content(content)] *)
Definition fix_tables_in_content (content : str) : option str :=
  let lines := split newline content in
  result <- fix_loop lines [] ;;
  Some (join [newline] result).

(** ** Values of the intermediate variables

    Closed forms of what [align_table] computes on its way, used to state
    and prove its properties. *)

(** What a cell adds to the width of its column. *)
Definition contribution (cell : str) : nat :=
  if is_sep_cell cell then 3 else length cell.

Definition col_width_step (col : nat) (max_width : nat) (row : list str)
  : nat :=
  if col <? length row then Nat.max max_width (contribution (nth col row []))
  else max_width.

(** The rows of a block after padding, and the width of each column. *)
Definition num_cols_val (rows : list (list str)) : nat :=
  list_max (List.map (@length str) rows).

Definition padded (rows : list (list str)) : list (list str) :=
  List.map (pad_row (num_cols_val rows)) rows.

Definition width_val (rows : list (list str)) (col : nat) : nat :=
  list_max (List.map (fun row => contribution (nth col row [])) rows).

Definition col_widths_val (rows : list (list str)) : list nat :=
  List.map (width_val rows) (seq 0 (num_cols_val rows)).

Definition render_row_val (col_widths : list nat) (row : list str)
  : list str :=
  List.map (fun p => render_cell (fst p) (snd p)) (combine row col_widths).

Definition cells_val (rows : list (list str)) : list (list str) :=
  List.map (render_row_val (col_widths_val rows)) (padded rows).

(** ** An instrumented [align_table]

    The same computation as [align_table] on a non-empty block, keeping
    the padded [rows], the [col_widths] and the [cells] of every row
    instead of the joined lines. *)

Record block : Type := Block {
  block_rows : list (list str);
  block_widths : list nat;
  block_cells : list (list str)
}.

Definition align_trace (table_lines : list str) : option block :=
  let rows := parse_rows table_lines in
  num_cols <- num_cols_of rows ;;
  let rows := List.map (pad_row num_cols) rows in
  col_widths <- col_widths_of num_cols rows ;;
  cells <- mapM (render_cells col_widths) rows ;;
  Some (Block rows col_widths cells).

(** ** The rendering of a separator-style cell, in the specification's
    words *)

Definition leading_colon (cell : str) : bool :=
  match cell with
  | [] => false
  | c :: _ => (c =? colon)%N
  end.

Definition trailing_colon (cell : str) : bool :=
  match cell with
  | [] => false
  | _ :: _ => (last cell dash =? colon)%N
  end.

Definition dashes (n : nat) : str := repeat dash n.

Definition separator_rendering (leading trailing : bool) (w : nat) : str :=
  match leading, trailing with
  | true, true => [colon] ++ dashes (w - 2) ++ [colon]
  | true, false => [colon] ++ dashes (w - 1)
  | false, true => dashes (w - 1) ++ [colon]
  | false, false => dashes w
  end.

(** ** Blocks

    A table block is a non-empty run of table rows followed by the end
    of the document or by a line that is not a table row. *)

Definition aligned_val (table_lines : list str) : list str :=
  List.map join_cells (cells_val (parse_rows table_lines)).

Definition blank_if (b : bool) : list str := if b then [[]] else [].

Definition ends_block (rest : list str) : bool :=
  match rest with
  | [] => true
  | next :: _ => negb (is_table_row next)
  end.

(** ** The shape of the output

    [reflowed src out]: [out] is [src] with every line that is not a
    table row kept as it is and in place, and every block replaced by
    its aligned lines, with at most one empty line added on each side
    of them. *)

Inductive reflowed : list str -> list str -> Prop :=
| reflowed_nil : reflowed [] []
| reflowed_line (line : str) (src out : list str) :
    is_table_row line = false ->
    reflowed src out ->
    reflowed (line :: src) (line :: out)
| reflowed_block (line : str) (table_lines aligned before after src out : list str) :
    forallb is_table_row (line :: table_lines) = true ->
    ends_block src = true ->
    align_table (line :: table_lines) = Some aligned ->
    forallb is_table_row aligned = true ->
    before = [] \/ before = [[]] ->
    after = [] \/ after = [[]] ->
    reflowed src out ->
    reflowed ((line :: table_lines) ++ src)
             (before ++ aligned ++ after ++ out).

(** A line that is neither a table row nor empty. *)
Definition is_text_line (line : str) : bool :=
  negb (is_table_row line) && negb (length line =? 0).

(** ** Reading back what was written

    [lacks c s]: the character [c] does not occur in [s]. *)

Definition lacks (c : char) (s : str) : bool :=
  forallb (fun d => negb (d =? c)%N) s.

(** A line that, once trimmed, is a single pipe: a table row with no
    cell. *)
Definition is_lone_pipe (line : str) : bool :=
  match strip line with
  | [c] => (c =? pipe)%N
  | _ => false
  end.

Definition no_lone_pipe (lines : list str) : bool :=
  forallb (fun line => negb (is_lone_pipe line)) lines.

(** A clean cell is trimmed and holds no pipe. *)
Definition clean (cell : str) : Prop :=
  strip cell = cell /\ lacks pipe cell = true.

(** The cells the parser reads back from a rendered row. *)
Definition reread_row (col_widths : list nat) (row : list str) : list str :=
  List.map strip (render_row_val col_widths row).

(** The rows read back from the aligned lines of a block. *)
Definition reread_rows (rows : list (list str)) : list (list str) :=
  List.map (reread_row (col_widths_val rows)) (padded rows).

(** ** The row normaliser *)

(** [normalize_table_row(line)] *)
Definition normalize_table_row (line : str) : str :=
  if negb (is_table_row line) then line
  else
    let stripped := strip line in
    let cells := split pipe stripped in
    let normalized_cells :=
      List.map (fun ic : nat * str =>
                  let (i, cell) := ic in
                  if (i =? 0) || (Z.of_nat i =? Z.of_nat (length cells) - 1)%Z
                  then []
                  else
                    let content := strip cell in
                    lit " " ++ content ++ lit " ")
               (enumerate cells) in
    join (lit "|") normalized_cells.

(** A cell between single spaces. *)
Definition spaced (cell : str) : str := space :: cell ++ [space].

(** ** What alignment keeps *)

(** The number of characters of a line whose cells have these widths. *)
Definition line_width (col_widths : list nat) : nat :=
  match col_widths with
  | [] => 4
  | _ :: _ => list_sum col_widths + 3 * length col_widths + 1
  end.

(** [kept cell cell']: a cell that is not made only of dashes and colons
    is kept as it is; one that is stays so. *)
Definition kept (cell cell' : str) : Prop :=
  if is_sep_cell cell then is_sep_cell cell' = true else cell' = cell.

(** ** Spacing

    A document is well spaced when no table row is next to a line that
    is neither a table row nor blank. *)

(** [line.strip() == ""] *)
Definition is_blank (line : str) : bool := length (strip line) =? 0.

Definition pair_spaced (x y : str) : bool :=
  Bool.eqb (is_table_row x) (is_table_row y) || is_blank x || is_blank y.

Fixpoint well_spaced (lines : list str) : bool :=
  match lines with
  | [] => true
  | x :: rest =>
      match rest with
      | [] => true
      | y :: _ => pair_spaced x y && well_spaced rest
      end
  end.

(** The last line of [a] and the first of [b] are well spaced, when both
    exist. *)
Definition joint (a b : list str) : bool :=
  match a, b with
  | _ :: _, y :: _ => pair_spaced (last a []) y
  | _, _ => true
  end.

(** The next line to copy, when the next line is not a table row. *)
Definition text_head (lines : list str) : list str :=
  match lines with
  | [] => []
  | next :: _ => if is_table_row next then [] else [next]
  end.

(** The lines before a block: none, or lines that do not end with a
    table row. *)
Definition ends_text (pre : list str) : bool :=
  match pre with
  | [] => true
  | _ :: _ => negb (is_table_row (last pre []))
  end.

(** ** Facts about the string primitives *)

Lemma lstrip_app_space (a s : str) :
  forallb is_space a = true -> lstrip (a ++ s) = lstrip s.
Proof.
  induction a as [|c a IH]; simpl; [reflexivity|].
  intros H. apply andb_prop in H as [Hc Ha]. rewrite Hc. auto.
Qed.

Lemma lstrip_nonspace (c : char) (s : str) :
  is_space c = false -> lstrip (c :: s) = c :: s.
Proof. intros H. simpl. rewrite H. reflexivity. Qed.

Lemma lstrip_decompose (s : str) :
  exists a, s = a ++ lstrip s /\ forallb is_space a = true.
Proof.
  induction s as [|c s [a [E Ha]]]; simpl.
  - exists []. auto.
  - destruct (is_space c) eqn:Hc.
    + exists (c :: a). simpl. rewrite Hc, <- E. auto.
    + exists []. auto.
Qed.

Lemma lstrip_head (s : str) :
  match lstrip s with
  | [] => True
  | c :: _ => is_space c = false
  end.
Proof.
  induction s as [|c s IH]; simpl; [exact I|].
  destruct (is_space c) eqn:Hc; [exact IH|exact Hc].
Qed.

Lemma lstrip_idem (s : str) : lstrip (lstrip s) = lstrip s.
Proof.
  pose proof (lstrip_head s) as H.
  destruct (lstrip s) as [|c t]; [reflexivity|].
  apply lstrip_nonspace, H.
Qed.

Lemma lstrip_all_space (s : str) :
  forallb is_space s = true -> lstrip s = [].
Proof.
  intros H. rewrite <- (app_nil_r s), lstrip_app_space; auto.
Qed.

Lemma lstrip_app_nonempty (s t : str) :
  lstrip s <> [] -> lstrip (s ++ t) = lstrip s ++ t.
Proof.
  induction s as [|c s IH]; simpl; [congruence|].
  destruct (is_space c); auto.
Qed.

Lemma rstrip_app_space (s b : str) :
  forallb is_space b = true -> rstrip (s ++ b) = rstrip s.
Proof.
  intros H. unfold rstrip. rewrite rev_app_distr, lstrip_app_space; auto.
  rewrite forallb_forall in *. intros x Hx. apply H, in_rev, Hx.
Qed.

Lemma rstrip_nonspace (s : str) (c : char) :
  is_space c = false -> rstrip (s ++ [c]) = s ++ [c].
Proof.
  intros H. unfold rstrip. rewrite rev_app_distr. simpl. rewrite H.
  change (rev (c :: rev s)) with (rev (rev s) ++ [c]).
  rewrite rev_involutive. reflexivity.
Qed.

Lemma rstrip_nil : rstrip [] = [].
Proof. reflexivity. Qed.

(** What remains after [rstrip] is empty or ends with a non-space. *)
Lemma rstrip_last (s : str) :
  rstrip s = [] \/ exists t c, rstrip s = t ++ [c] /\ is_space c = false.
Proof.
  unfold rstrip. pose proof (lstrip_head (rev s)) as H.
  destruct (lstrip (rev s)) as [|c t]; [left; reflexivity|].
  right. exists (rev t), c. simpl. auto.
Qed.

Lemma rstrip_decompose (s : str) :
  exists b, s = rstrip s ++ b /\ forallb is_space b = true.
Proof.
  destruct (lstrip_decompose (rev s)) as [a [E Ha]].
  exists (rev a). split.
  - unfold rstrip. rewrite <- rev_app_distr, <- E.
    symmetry. apply rev_involutive.
  - rewrite forallb_forall in *. intros x Hx. apply Ha, in_rev, Hx.
Qed.

(** [rstrip] keeps the first character of a string that starts with a
    non-space. *)
Lemma rstrip_cons_nonspace (c : char) (s : str) :
  is_space c = false -> exists t, rstrip (c :: s) = c :: t.
Proof.
  intros Hc. destruct (rstrip_decompose (c :: s)) as [b [E Hb]].
  destruct (rstrip (c :: s)) as [|d t] eqn:R.
  - simpl in E. subst b. simpl in Hb. rewrite Hc in Hb. discriminate.
  - simpl in E. injection E as -> _. eauto.
Qed.

Lemma strip_head (s : str) :
  match strip s with
  | [] => True
  | c :: _ => is_space c = false
  end.
Proof.
  unfold strip. pose proof (lstrip_head s) as H.
  destruct (lstrip s) as [|c t]; [exact I|].
  destruct (rstrip_cons_nonspace c t H) as [u ->]. exact H.
Qed.

Lemma strip_last (s : str) :
  strip s = [] \/ exists t c, strip s = t ++ [c] /\ is_space c = false.
Proof. apply rstrip_last. Qed.

(** [strip] removes a run of whitespace at each end, and nothing else. *)
Lemma strip_decompose (s : str) :
  exists a b, s = a ++ strip s ++ b /\
              forallb is_space a = true /\ forallb is_space b = true.
Proof.
  destruct (lstrip_decompose s) as [a [Ea Ha]].
  destruct (rstrip_decompose (lstrip s)) as [b [Eb Hb]].
  exists a, b. unfold strip. rewrite <- Eb. auto.
Qed.

(** A string with a non-space at both ends is left as it is. *)
Lemma strip_fixed (c d : char) (s : str) :
  is_space c = false -> is_space d = false ->
  strip (c :: s ++ [d]) = c :: s ++ [d].
Proof.
  intros Hc Hd. unfold strip. rewrite lstrip_nonspace by exact Hc.
  apply (rstrip_nonspace (c :: s)), Hd.
Qed.

Lemma strip_single (c : char) : is_space c = false -> strip [c] = [c].
Proof.
  intros Hc. unfold strip. rewrite lstrip_nonspace by exact Hc.
  apply (rstrip_nonspace []), Hc.
Qed.

Lemma strip_idem (s : str) : strip (strip s) = strip s.
Proof.
  pose proof (strip_head s) as Hh.
  destruct (strip_last s) as [E|[t [c [E Hc]]]]; rewrite E in *; [reflexivity|].
  destruct t as [|d t]; simpl in *.
  - apply strip_single, Hc.
  - apply strip_fixed; assumption.
Qed.

Lemma strip_pad (a b s : str) :
  forallb is_space a = true -> forallb is_space b = true ->
  strip (a ++ s ++ b) = strip s.
Proof.
  intros Ha Hb. unfold strip. rewrite lstrip_app_space by exact Ha.
  destruct (lstrip s) as [|c t] eqn:E.
  - destruct (lstrip_decompose s) as [a' [Es Ha']]. rewrite E, app_nil_r in Es.
    subst a'. rewrite lstrip_all_space; [reflexivity|].
    rewrite forallb_app, Ha', Hb. reflexivity.
  - rewrite lstrip_app_nonempty by congruence. rewrite E.
    apply rstrip_app_space, Hb.
Qed.

Lemma startswith_single (s : str) (c : char) :
  startswith s [c] = true <-> exists t, s = c :: t.
Proof.
  destruct s as [|d t]; simpl.
  - split; [discriminate|intros [t H]; discriminate].
  - destruct t; rewrite andb_true_r, N.eqb_eq;
      (split; [intros ->; eauto|intros [u H]; congruence]).
Qed.

Lemma endswith_single (s : str) (c : char) :
  endswith s [c] = true <-> exists t, s = t ++ [c].
Proof.
  unfold endswith. simpl. rewrite startswith_single. split.
  - intros [t H]. exists (rev t).
    rewrite <- (rev_involutive s), H. reflexivity.
  - intros [t ->]. exists (rev t). rewrite rev_app_distr. reflexivity.
Qed.

Lemma startswith_cons (c d : char) (s : str) :
  startswith (c :: s) [d] = (c =? d)%N.
Proof. simpl. destruct s; apply andb_true_r. Qed.

Lemma endswith_snoc (s : str) (c d : char) :
  endswith (s ++ [c]) [d] = (c =? d)%N.
Proof.
  unfold endswith. rewrite rev_app_distr. simpl rev.
  apply (startswith_cons c d (rev s)).
Qed.

Lemma endswith_nil (c : char) : endswith [] [c] = false.
Proof. reflexivity. Qed.

Lemma pipe_not_space : is_space pipe = false.
Proof. reflexivity. Qed.

Lemma join_cells_shape (cells : list str) :
  join_cells cells =
  pipe :: (space :: join (lit " | ") cells ++ [space]) ++ [pipe].
Proof.
  unfold join_cells. change (lit "| ") with [pipe; space].
  change (lit " |") with ([space] ++ [pipe]).
  simpl. rewrite <- app_assoc. reflexivity.
Qed.

(** Every line [align_table] builds is itself recognised as a table
    row, and [strip] leaves it as it is. *)
Lemma strip_join_cells (cells : list str) :
  strip (join_cells cells) = join_cells cells.
Proof.
  rewrite join_cells_shape.
  apply strip_fixed; apply pipe_not_space.
Qed.

Lemma join_cells_is_table_row (cells : list str) :
  is_table_row (join_cells cells) = true.
Proof.
  unfold is_table_row. cbv zeta. rewrite strip_join_cells, join_cells_shape.
  change (lit "|") with [pipe].
  rewrite startswith_cons, app_comm_cons, endswith_snoc. reflexivity.
Qed.

Lemma nil_not_table_row : is_table_row [] = false.
Proof. reflexivity. Qed.

(** ** Loops that cannot fail *)

Lemma mapM_pure {A B : Type} (f : A -> option B) (g : A -> B) (l : list A) :
  (forall a, In a l -> f a = Some (g a)) -> mapM f l = Some (List.map g l).
Proof.
  induction l as [|a l IH]; intros H; simpl; [reflexivity|].
  rewrite (H a) by (left; reflexivity). simpl.
  rewrite IH by (intros b Hb; apply H; right; exact Hb). reflexivity.
Qed.

Lemma mapM_then {A B C : Type} (f : A -> option B) (g : B -> C) (l : list A) :
  mapM (fun a => b <- f a ;; Some (g b)) l =
  bs <- mapM f l ;; Some (List.map g bs).
Proof.
  induction l as [|a l IH]; simpl; [reflexivity|].
  destruct (f a) as [b|]; simpl; [|reflexivity].
  rewrite IH. destruct (mapM f l); reflexivity.
Qed.

Lemma py_max_list_max (x : nat) (xs : list nat) :
  Py.max (x :: xs) = Some (list_max (x :: xs)).
Proof.
  simpl. f_equal. revert x.
  induction xs as [|y ys IH]; intros x; simpl; [lia|].
  rewrite IH. simpl. lia.
Qed.

(** ** Column widths *)

Lemma col_width_fold_from (rows : list (list str)) (col acc : nat) :
  foldM (fun max_width row =>
           if col <? length row then
             cell <- index row col ;;
             if is_sep_cell cell then Some (Nat.max max_width 3)
             else Some (Nat.max max_width (length cell))
           else Some max_width)
        rows acc
  = Some (fold_left (col_width_step col) rows acc).
Proof.
  revert acc.
  induction rows as [|row rows IH]; intros acc; simpl; [reflexivity|].
  unfold col_width_step at 2. destruct (col <? length row) eqn:Hlt.
  - apply Nat.ltb_lt in Hlt. unfold index.
    rewrite (nth_error_nth' row [] Hlt). simpl. unfold contribution.
    destruct (is_sep_cell (nth col row [])); simpl; apply IH.
  - simpl. apply IH.
Qed.

Lemma col_width_fold (rows : list (list str)) (col : nat) :
  col_width rows col = Some (fold_left (col_width_step col) rows 0).
Proof. apply col_width_fold_from. Qed.

Lemma fold_col_width_step (rows : list (list str)) (col acc : nat) :
  Forall (fun row => col < length row) rows ->
  fold_left (col_width_step col) rows acc =
  Nat.max acc (list_max (List.map (fun row => contribution (nth col row [])) rows)).
Proof.
  intros H. revert acc.
  induction H as [|row rows Hrow _ IH]; intros acc.
  - simpl. lia.
  - cbn [fold_left List.map]. rewrite IH. unfold col_width_step.
    apply Nat.ltb_lt in Hrow. rewrite Hrow.
    change (list_max (?x :: ?l)) with (Nat.max x (list_max l)). symmetry. apply Nat.max_assoc.
Qed.

Lemma pad_row_length (n : nat) (row : list str) :
  length row <= n -> length (pad_row n row) = n.
Proof.
  intros H. unfold pad_row. rewrite length_app, repeat_length. lia.
Qed.

Lemma pad_row_nth (n col : nat) (row : list str) :
  nth col (pad_row n row) [] = nth col row [].
Proof.
  unfold pad_row. destruct (Nat.lt_ge_cases col (length row)) as [H|H].
  - apply app_nth1, H.
  - rewrite app_nth2 by exact H. rewrite (nth_overflow row) by exact H.
    generalize (col - length row) as k. generalize (n - length row) as m.
    induction m as [|m IH]; intros [|k]; simpl; auto.
Qed.

Lemma length_le_list_max (rows : list (list str)) (row : list str) :
  In row rows -> length row <= list_max (List.map (@length str) rows).
Proof.
  intros H.
  assert (Hle : list_max (List.map (@length str) rows)
                <= list_max (List.map (@length str) rows)) by lia.
  rewrite list_max_le, Forall_forall in Hle.
  apply Hle, in_map, H.
Qed.

Lemma padded_length (rows : list (list str)) :
  Forall (fun row => length row = num_cols_val rows) (padded rows).
Proof.
  unfold padded. rewrite Forall_map, Forall_forall. intros row H.
  apply pad_row_length, length_le_list_max, H.
Qed.

Lemma num_cols_of_val (row : list str) (rows : list (list str)) :
  num_cols_of (row :: rows) = Some (num_cols_val (row :: rows)).
Proof. apply py_max_list_max. Qed.

Lemma col_widths_of_val (rows : list (list str)) :
  col_widths_of (num_cols_val rows) (padded rows) = Some (col_widths_val rows).
Proof.
  unfold col_widths_of, col_widths_val. apply mapM_pure.
  intros col Hcol. apply in_seq in Hcol.
  rewrite col_width_fold, fold_col_width_step.
  - unfold width_val, padded. rewrite map_map. simpl. f_equal. f_equal.
    apply map_ext. intros row. rewrite pad_row_nth. reflexivity.
  - eapply Forall_impl; [|apply padded_length].
    simpl. intros row ->. lia.
Qed.

(** ** Rendering *)

Lemma render_cells_from (pre ws : list nat) (row : list str) :
  length row <= length ws ->
  mapM (fun ic : nat * str =>
          let (col_idx, cell) := ic in
          width <- index (pre ++ ws) col_idx ;;
          Some (render_cell cell width))
       (combine (seq (length pre) (length row)) row)
  = Some (render_row_val ws row).
Proof.
  revert pre ws. induction row as [|cell row IH]; intros pre ws H.
  - reflexivity.
  - destruct ws as [|w ws]; simpl in H; [lia|].
    cbn [length seq combine mapM]. unfold index at 1.
    rewrite nth_error_app2, Nat.sub_diag by lia. cbn [nth_error bind].
    specialize (IH (pre ++ [w]) ws).
    rewrite <- app_assoc, length_app, Nat.add_1_r in IH. simpl app in IH.
    rewrite IH by lia. reflexivity.
Qed.

Lemma render_cells_val (ws : list nat) (row : list str) :
  length row <= length ws ->
  render_cells ws row = Some (render_row_val ws row).
Proof. apply (render_cells_from [] ws row). Qed.

Lemma col_widths_val_length (rows : list (list str)) :
  length (col_widths_val rows) = num_cols_val rows.
Proof. unfold col_widths_val. rewrite length_map, length_seq. reflexivity. Qed.

Lemma cells_of_val (rows : list (list str)) :
  mapM (render_cells (col_widths_val rows)) (padded rows)
  = Some (cells_val rows).
Proof.
  apply mapM_pure. intros row H. apply render_cells_val.
  pose proof (padded_length rows) as Hp. rewrite Forall_forall in Hp.
  rewrite (Hp row H), col_widths_val_length. lia.
Qed.

Lemma align_trace_val (line : str) (lines : list str) :
  align_trace (line :: lines)
  = Some (Block (padded (parse_rows (line :: lines)))
                (col_widths_val (parse_rows (line :: lines)))
                (cells_val (parse_rows (line :: lines)))).
Proof.
  unfold align_trace. cbv zeta.
  change (parse_rows (line :: lines))
    with (parse_row line :: parse_rows lines).
  rewrite num_cols_of_val. cbn [bind].
  fold (padded (parse_row line :: parse_rows lines)).
  rewrite col_widths_of_val. cbn [bind].
  rewrite cells_of_val. reflexivity.
Qed.

Lemma align_table_trace (line : str) (lines : list str) :
  align_table (line :: lines)
  = b <- align_trace (line :: lines) ;; Some (List.map join_cells (block_cells b)).
Proof.
  unfold align_table, align_trace. cbv zeta.
  change (parse_rows (line :: lines))
    with (parse_row line :: parse_rows lines).
  destruct (num_cols_of (parse_row line :: parse_rows lines)) as [n|];
    [|reflexivity].
  cbn [bind].
  destruct (col_widths_of n _) as [ws|]; [|reflexivity].
  cbn [bind]. rewrite mapM_then.
  destruct (mapM (render_cells ws) _); reflexivity.
Qed.

Lemma align_table_val (line : str) (lines : list str) :
  align_table (line :: lines)
  = Some (List.map join_cells (cells_val (parse_rows (line :: lines)))).
Proof. rewrite align_table_trace, align_trace_val. reflexivity. Qed.

Lemma mul_dash (n : Z) : mul (lit "-") n = dashes (Z.to_nat n).
Proof.
  unfold mul, dashes. change (lit "-") with [dash].
  induction (Z.to_nat n) as [|k IH]; simpl; [reflexivity|].
  rewrite IH. reflexivity.
Qed.

Lemma dashes_length (n : nat) : length (dashes n) = n.
Proof. apply repeat_length. Qed.

Lemma startswith_colon (cell : str) :
  startswith cell (lit ":") = leading_colon cell.
Proof.
  change (lit ":") with [colon]. destruct cell as [|c s]; [reflexivity|].
  apply startswith_cons.
Qed.

Lemma endswith_colon (cell : str) :
  endswith cell (lit ":") = trailing_colon cell.
Proof.
  change (lit ":") with [colon].
  destruct cell as [|c0 s0]; [reflexivity|].
  destruct (exists_last (l := c0 :: s0)) as [s [c E]]; [discriminate|].
  rewrite E, endswith_snoc. unfold trailing_colon.
  rewrite last_last. destruct s; reflexivity.
Qed.

(** The code's rendering of a separator-style cell is the
    specification's, at every width. *)
Lemma render_cell_sep (cell : str) (w : nat) :
  is_sep_cell cell = true ->
  render_cell cell w
  = separator_rendering (leading_colon cell) (trailing_colon cell) w.
Proof.
  intros H. unfold render_cell. rewrite H, startswith_colon, endswith_colon.
  rewrite !mul_dash. change (lit ":") with [colon].
  replace (Z.to_nat (Z.of_nat w - 2)) with (w - 2) by lia.
  replace (Z.to_nat (Z.of_nat w - 1)) with (w - 1) by lia.
  rewrite Nat2Z.id.
  destruct (leading_colon cell), (trailing_colon cell); reflexivity.
Qed.

Lemma render_cell_regular (cell : str) (w : nat) :
  is_sep_cell cell = false -> render_cell cell w = ljust cell w.
Proof. intros H. unfold render_cell. rewrite H. reflexivity. Qed.

Lemma separator_rendering_length (a b : bool) (w : nat) :
  3 <= w -> length (separator_rendering a b w) = w.
Proof.
  intros H. destruct a, b; unfold separator_rendering;
    rewrite ?length_app, ?dashes_length; simpl; lia.
Qed.

Lemma ljust_length (s : str) (w : nat) :
  length s <= w -> length (ljust s w) = w.
Proof.
  intros H. unfold ljust. rewrite length_app, repeat_length. lia.
Qed.

(** A cell rendered at a width that is at least its contribution is
    exactly that wide. *)
Lemma render_cell_length (cell : str) (w : nat) :
  contribution cell <= w -> length (render_cell cell w) = w.
Proof.
  unfold contribution. destruct (is_sep_cell cell) eqn:E; intros H.
  - rewrite render_cell_sep by exact E.
    apply separator_rendering_length, H.
  - rewrite render_cell_regular by exact E. apply ljust_length, H.
Qed.

Lemma contribution_le_width (rows : list (list str)) (row : list str)
  (col : nat) :
  In row rows -> contribution (nth col row []) <= width_val rows col.
Proof.
  intros H. unfold width_val.
  set (l := List.map (fun r => contribution (nth col r [])) rows).
  assert (Hle : Forall (fun k => k <= list_max l) l)
    by (apply list_max_le, Nat.le_refl).
  rewrite Forall_forall in Hle. apply Hle.
  apply (in_map (fun r => contribution (nth col r [])) rows row H).
Qed.

Lemma col_widths_val_nth (rows : list (list str)) (col : nat) :
  col < num_cols_val rows ->
  nth col (col_widths_val rows) 0 = width_val rows col.
Proof.
  intros H. unfold col_widths_val.
  rewrite (nth_indep _ 0 (width_val rows 0))
    by (rewrite length_map, length_seq; exact H).
  rewrite map_nth, seq_nth by exact H. reflexivity.
Qed.

Lemma render_row_val_length (ws : list nat) (row : list str) :
  length row = length ws -> length (render_row_val ws row) = length ws.
Proof.
  intros H. unfold render_row_val.
  rewrite length_map, length_combine. lia.
Qed.

Lemma render_row_val_nth (ws : list nat) (row : list str) (col : nat) :
  length row = length ws ->
  nth col (render_row_val ws row) []
  = render_cell (nth col row []) (nth col ws 0).
Proof.
  intros H. unfold render_row_val.
  change (@nil char) with
    ((fun p : str * nat => render_cell (fst p) (snd p)) ([], 0)) at 1.
  rewrite map_nth, combine_nth by exact H. reflexivity.
Qed.

(** Every cell of a rendered row is as wide as its column. *)
Lemma cells_val_widths (rows : list (list str)) :
  Forall (fun cells => List.map (@length char) cells = col_widths_val rows)
         (cells_val rows).
Proof.
  unfold cells_val, padded. rewrite !Forall_map, Forall_forall.
  intros row Hrow.
  assert (Hlen : length (pad_row (num_cols_val rows) row)
                 = length (col_widths_val rows)).
  { rewrite col_widths_val_length.
    apply pad_row_length, length_le_list_max, Hrow. }
  apply (nth_ext _ _ 0 0).
  - rewrite length_map. apply render_row_val_length, Hlen.
  - intros col Hcol.
    rewrite length_map, render_row_val_length in Hcol by exact Hlen.
    change 0 with (length (@nil char)) at 1.
    rewrite map_nth, render_row_val_nth, pad_row_nth by exact Hlen.
    rewrite col_widths_val_length in Hcol.
    rewrite col_widths_val_nth by exact Hcol.
    apply render_cell_length, contribution_le_width, Hrow.
Qed.

(** ** The main loop *)

Lemma fix_loop_line (line : str) (rest result : list str) :
  is_table_row line = false ->
  fix_loop (line :: rest) result = fix_loop rest (result ++ [line]).
Proof. intros H. simp fix_loop. rewrite H. reflexivity. Qed.

Lemma fix_loop_table (line : str) (rest result : list str) :
  is_table_row line = true ->
  fix_loop (line :: rest) result =
  aligned <- align_table (line :: fst (collect_table rest)) ;;
  fix_loop (snd (collect_table rest))
    ((if blank_needed_before result then result ++ [[]] else result)
       ++ aligned
       ++ (if blank_needed_after (snd (collect_table rest)) then [[]] else [])).
Proof.
  intros H. simp fix_loop. rewrite H.
  cbv beta iota zeta delta [fix_loop_unfold_clause_2].
  destruct (align_table _) as [aligned|]; [|reflexivity]. cbn [bind].
  destruct (blank_needed_after _); rewrite ?app_nil_r, <- ?app_assoc; reflexivity.
Qed.

Lemma collect_table_split (lines : list str) :
  lines = fst (collect_table lines) ++ snd (collect_table lines).
Proof.
  induction lines as [|line rest IH]; simpl; [reflexivity|].
  destruct (is_table_row line); [|reflexivity].
  destruct (collect_table rest); simpl in *. f_equal. exact IH.
Qed.

Lemma collect_table_rows (lines : list str) :
  forallb is_table_row (fst (collect_table lines)) = true.
Proof.
  induction lines as [|line rest IH]; simpl; [reflexivity|].
  destruct (is_table_row line) eqn:E; [|reflexivity].
  destruct (collect_table rest); simpl in *. rewrite E. exact IH.
Qed.

Lemma collect_table_ends (lines : list str) :
  ends_block (snd (collect_table lines)) = true.
Proof.
  induction lines as [|line rest IH]; simpl; [reflexivity|].
  destruct (is_table_row line) eqn:E.
  - destruct (collect_table rest); exact IH.
  - simpl. rewrite E. reflexivity.
Qed.

Lemma collect_table_block (table_lines rest : list str) :
  forallb is_table_row table_lines = true ->
  ends_block rest = true ->
  collect_table (table_lines ++ rest) = (table_lines, rest).
Proof.
  intros Ht Hr. induction table_lines as [|line tl IH]; simpl in *.
  - destruct rest as [|next rest]; [reflexivity|]. simpl in *.
    destruct (is_table_row next); [discriminate|reflexivity].
  - apply andb_prop in Ht as [Hl Ht]. rewrite Hl, IH by exact Ht. reflexivity.
Qed.

(** Induction over a document, block by block. *)
Lemma block_ind (P : list str -> Prop) :
  P [] ->
  (forall line rest,
      is_table_row line = false -> P rest -> P (line :: rest)) ->
  (forall line table_lines rest,
      forallb is_table_row (line :: table_lines) = true ->
      ends_block rest = true ->
      P rest -> P ((line :: table_lines) ++ rest)) ->
  forall lines, P lines.
Proof.
  intros Hnil Hline Hblock lines.
  induction lines as [lines IH] using (induction_ltof1 _ (@length str)).
  unfold ltof in IH. destruct lines as [|line rest]; [exact Hnil|].
  destruct (is_table_row line) eqn:E.
  - rewrite (collect_table_split rest).
    apply (Hblock line (fst (collect_table rest)) (snd (collect_table rest))).
    + simpl. rewrite E. apply collect_table_rows.
    + apply collect_table_ends.
    + apply IH. pose proof (collect_table_length rest). simpl. lia.
  - apply Hline; [exact E|]. apply IH. simpl. lia.
Qed.

Lemma align_table_aligned (line : str) (lines : list str) :
  align_table (line :: lines) = Some (aligned_val (line :: lines)).
Proof. apply align_table_val. Qed.

(** One iteration of the outer loop on a block. *)
Lemma fix_loop_block (line : str) (table_lines rest result : list str) :
  forallb is_table_row (line :: table_lines) = true ->
  ends_block rest = true ->
  fix_loop ((line :: table_lines) ++ rest) result =
  fix_loop rest
    (result ++ blank_if (blank_needed_before result)
       ++ aligned_val (line :: table_lines)
       ++ blank_if (blank_needed_after rest)).
Proof.
  intros Ht Hr. simpl in Ht. apply andb_prop in Ht as [Hl Ht].
  simpl app. rewrite fix_loop_table by exact Hl.
  rewrite (collect_table_block table_lines rest Ht Hr). simpl fst. simpl snd.
  rewrite align_table_aligned. cbn [bind]. f_equal.
  unfold blank_if. destruct (blank_needed_before result);
    rewrite <- ?app_assoc; reflexivity.
Qed.

(** The loop always returns, and only ever appends to [result]. *)
Lemma fix_loop_total (lines : list str) :
  forall result, exists emitted, fix_loop lines result = Some (result ++ emitted).
Proof.
  induction lines as [|line rest Hl IH|line tl rest Ht Hr IH] using block_ind;
    intros result.
  - exists []. simp fix_loop. rewrite app_nil_r. reflexivity.
  - destruct (IH (result ++ [line])) as [e He]. exists (line :: e).
    rewrite fix_loop_line, He, <- app_assoc by exact Hl. reflexivity.
  - rewrite fix_loop_block by assumption.
    match goal with |- context [fix_loop rest (result ++ ?x)] =>
      destruct (IH (result ++ x)) as [e He]; exists (x ++ e) end.
    rewrite He, <- app_assoc. reflexivity.
Qed.

(** ** Looking up one cell of a block *)

Lemma nth_error_lt {A : Type} (l : list A) (n : nat) (a : A) :
  nth_error l n = Some a -> n < length l.
Proof. intros H. apply nth_error_Some. congruence. Qed.

Lemma trace_cell (rows0 : list (list str)) (r c : nat) (row : list str)
  (cell : str) :
  nth_error (padded rows0) r = Some row ->
  nth_error row c = Some cell ->
  contribution cell <= width_val rows0 c /\
  nth_error (col_widths_val rows0) c = Some (width_val rows0 c) /\
  nth_error (cells_val rows0) r
  = Some (render_row_val (col_widths_val rows0) row) /\
  nth_error (render_row_val (col_widths_val rows0) row) c
  = Some (render_cell cell (width_val rows0 c)).
Proof.
  intros Hrow Hcell.
  assert (Hlen : length row = length (col_widths_val rows0)).
  { pose proof (padded_length rows0) as Hp. rewrite Forall_forall in Hp.
    rewrite col_widths_val_length. apply Hp. eapply nth_error_In, Hrow. }
  pose proof (nth_error_lt _ _ _ Hcell) as Hc.
  assert (Hw : nth c (col_widths_val rows0) 0 = width_val rows0 c).
  { apply col_widths_val_nth. rewrite <- col_widths_val_length. lia. }
  unfold padded in Hrow. rewrite nth_error_map in Hrow.
  destruct (nth_error rows0 r) as [row0|] eqn:Hrow0; [|discriminate].
  injection Hrow as <-.
  apply (nth_error_nth _ _ []) in Hcell. rewrite pad_row_nth in Hcell.
  split; [|split; [|split]].
  - rewrite <- Hcell. apply contribution_le_width. eapply nth_error_In, Hrow0.
  - rewrite <- Hw. apply nth_error_nth'. lia.
  - unfold cells_val, padded. rewrite !nth_error_map, Hrow0. reflexivity.
  - rewrite (nth_error_nth' _ ([] : str))
      by (rewrite render_row_val_length by exact Hlen; lia).
    rewrite render_row_val_nth, pad_row_nth, Hcell, Hw by exact Hlen.
    reflexivity.
Qed.

Lemma align_trace_inv (table_lines : list str) (b : block) :
  align_trace table_lines = Some b ->
  b = Block (padded (parse_rows table_lines))
            (col_widths_val (parse_rows table_lines))
            (cells_val (parse_rows table_lines)).
Proof.
  destruct table_lines as [|line lines]; [discriminate|].
  rewrite align_trace_val. congruence.
Qed.

Lemma align_table_of_trace (table_lines : list str) (b : block) :
  align_trace table_lines = Some b ->
  align_table table_lines = Some (List.map join_cells (block_cells b)).
Proof.
  destruct table_lines as [|line lines]; [discriminate|].
  intros H. rewrite align_table_trace, H. reflexivity.
Qed.

Lemma separator_rendering_leading (a b : bool) (w : nat) :
  3 <= w -> leading_colon (separator_rendering a b w) = a.
Proof.
  intros H. destruct w as [|[|[|w]]]; try lia.
  destruct a, b; reflexivity.
Qed.

Lemma trailing_colon_snoc (s : str) (c : char) :
  trailing_colon (s ++ [c]) = (c =? colon)%N.
Proof.
  unfold trailing_colon. rewrite last_last. destruct s; reflexivity.
Qed.

Lemma dashes_snoc (n : nat) : dashes (S n) = dashes n ++ [dash].
Proof. unfold dashes. rewrite <- repeat_cons. reflexivity. Qed.

Lemma separator_rendering_trailing (a b : bool) (w : nat) :
  3 <= w -> trailing_colon (separator_rendering a b w) = b.
Proof.
  intros H. destruct a, b; unfold separator_rendering.
  - rewrite app_assoc. apply trailing_colon_snoc.
  - replace (w - 1) with (S (w - 2)) by lia.
    rewrite dashes_snoc, app_assoc. apply trailing_colon_snoc.
  - apply trailing_colon_snoc.
  - replace w with (S (w - 1)) by lia.
    rewrite dashes_snoc. apply trailing_colon_snoc.
Qed.

Lemma is_sep_cell_forallb (cell : str) :
  is_sep_cell cell = forallb (fun c => (c =? dash)%N || (c =? colon)%N) cell.
Proof.
  unfold is_sep_cell, all_in.
  induction cell as [|c cell IH]; [reflexivity|].
  cbn [forallb]. rewrite IH. simpl. rewrite orb_false_r. reflexivity.
Qed.

(** ** Blank lines and pass-through *)

Lemma blank_needed_before_true (result : list str) :
  blank_needed_before result = true ->
  exists prefix prev, result = prefix ++ [prev] /\ strip prev <> [].
Proof.
  unfold blank_needed_before. destruct result as [|x result]; [discriminate|].
  destruct (exists_last (l := x :: result)) as [prefix [prev E]];
    [discriminate|].
  rewrite E, last_last. intros H. exists prefix, prev. split; [reflexivity|].
  intros Hs. rewrite Hs in H. discriminate.
Qed.

Lemma blank_needed_before_false (result : list str) :
  blank_needed_before result = false ->
  result = [] \/
  exists prefix prev, result = prefix ++ [prev] /\ strip prev = [].
Proof.
  unfold blank_needed_before. destruct result as [|x result]; [auto|].
  destruct (exists_last (l := x :: result)) as [prefix [prev E]];
    [discriminate|].
  rewrite E, last_last. intros H. right. exists prefix, prev.
  split; [reflexivity|]. destruct (strip prev); [reflexivity|discriminate].
Qed.

Lemma blank_needed_after_true (rest : list str) :
  blank_needed_after rest = true ->
  exists next tail, rest = next :: tail /\ strip next <> [].
Proof.
  destruct rest as [|next tail]; [discriminate|]. simpl. intros H.
  exists next, tail. split; [reflexivity|].
  intros Hs. rewrite Hs in H. discriminate.
Qed.

Lemma blank_needed_after_false (rest : list str) :
  blank_needed_after rest = false ->
  rest = [] \/ exists next tail, rest = next :: tail /\ strip next = [].
Proof.
  destruct rest as [|next tail]; [auto|]. simpl. intros H.
  right. exists next, tail. split; [reflexivity|].
  destruct (strip next); [reflexivity|discriminate].
Qed.

Lemma blank_needed_before_snoc (result : list str) (line : str) :
  blank_needed_before (result ++ [line]) = negb (length (strip line) =? 0).
Proof.
  unfold blank_needed_before. rewrite last_last.
  destruct result; reflexivity.
Qed.

Lemma aligned_val_rows (table_lines : list str) :
  forallb is_table_row (aligned_val table_lines) = true.
Proof.
  unfold aligned_val. apply forallb_forall. intros x Hx.
  apply in_map_iff in Hx as [cells [<- _]]. apply join_cells_is_table_row.
Qed.

Lemma aligned_val_length (table_lines : list str) :
  length (aligned_val table_lines) = length table_lines.
Proof.
  unfold aligned_val, cells_val, padded, parse_rows.
  rewrite !length_map. reflexivity.
Qed.

Lemma blank_if_cases (b : bool) : blank_if b = [] \/ blank_if b = [[]].
Proof. destruct b; auto. Qed.

(** The output of the loop is the input, reflowed. *)
Lemma fix_loop_reflowed (lines : list str) :
  forall result, exists emitted,
    fix_loop lines result = Some (result ++ emitted) /\ reflowed lines emitted.
Proof.
  induction lines as [|line rest Hl IH|line tl rest Ht Hr IH] using block_ind;
    intros result.
  - exists []. simp fix_loop. rewrite app_nil_r. split; [reflexivity|constructor].
  - destruct (IH (result ++ [line])) as [e [He Hre]]. exists (line :: e).
    rewrite fix_loop_line, He, <- app_assoc by exact Hl.
    split; [reflexivity|]. constructor; assumption.
  - rewrite fix_loop_block by assumption.
    match goal with |- context [fix_loop rest (result ++ ?x)] =>
      destruct (IH (result ++ x)) as [e [He Hre]] end.
    exists (blank_if (blank_needed_before result)
              ++ aligned_val (line :: tl)
              ++ blank_if (blank_needed_after rest) ++ e).
    rewrite He, <- !app_assoc. split; [reflexivity|].
    apply reflowed_block; try assumption.
    + apply align_table_aligned.
    + apply aligned_val_rows.
    + apply blank_if_cases.
    + apply blank_if_cases.
Qed.

Lemma filter_text_rows (l : list str) :
  forallb is_table_row l = true -> filter is_text_line l = [].
Proof.
  induction l as [|x l IH]; simpl; [reflexivity|].
  intros H. apply andb_prop in H as [Hx Hl].
  unfold is_text_line at 1. rewrite Hx. simpl. auto.
Qed.

Lemma filter_text_blank (l : list str) :
  l = [] \/ l = [[]] -> filter is_text_line l = [].
Proof.
  intros [-> | ->]; reflexivity.
Qed.

(** Reflowing neither adds, drops nor reorders text lines. *)
Lemma reflowed_text_lines (src out : list str) :
  reflowed src out -> filter is_text_line out = filter is_text_line src.
Proof.
  induction 1 as [|line src out Hl _ IH
                  |line tl aligned before after src out Ht _ _ Ha Hb Hf _ IH].
  - reflexivity.
  - simpl. rewrite IH. reflexivity.
  - rewrite !filter_app, IH.
    rewrite (filter_text_rows _ Ht), (filter_text_rows _ Ha).
    rewrite (filter_text_blank _ Hb), (filter_text_blank _ Hf). reflexivity.
Qed.

(** ** Splitting and joining *)

Lemma lacks_app (c : char) (s t : str) :
  lacks c (s ++ t) = lacks c s && lacks c t.
Proof. apply forallb_app. Qed.

Lemma lacks_cons (c d : char) (s : str) :
  lacks c (d :: s) = negb (d =? c)%N && lacks c s.
Proof. reflexivity. Qed.

Lemma lacks_repeat (c d : char) (n : nat) :
  (d =? c)%N = false -> lacks c (repeat d n) = true.
Proof.
  intros H. induction n as [|n IH]; simpl; [reflexivity|].
  rewrite H. exact IH.
Qed.

Lemma lacks_strip (c : char) (s : str) :
  lacks c s = true -> lacks c (strip s) = true.
Proof.
  destruct (strip_decompose s) as [a [b [E _]]]. intros H.
  rewrite E, !lacks_app in H.
  apply andb_prop in H as [_ H]. apply andb_prop in H as [H _]. exact H.
Qed.

Lemma split_nonempty (sep : char) (s : str) : split sep s <> [].
Proof.
  destruct s as [|c s]; simpl; [discriminate|].
  destruct (c =? sep)%N; [discriminate|].
  destruct (split sep s); discriminate.
Qed.

Lemma split_cons_other (sep c : char) (s : str) :
  (c =? sep)%N = false ->
  split sep (c :: s) = (c :: hd [] (split sep s)) :: tl (split sep s).
Proof.
  intros H. simpl. rewrite H.
  pose proof (split_nonempty sep s).
  destruct (split sep s); [congruence|reflexivity].
Qed.

(** Splitting at the first separator. *)
Lemma split_app_sep (sep : char) (s t : str) :
  lacks sep s = true -> split sep (s ++ sep :: t) = s :: split sep t.
Proof.
  induction s as [|c s IH]; simpl.
  - rewrite N.eqb_refl. reflexivity.
  - intros H. apply andb_prop in H as [Hc Hs].
    apply negb_true_iff in Hc. rewrite Hc, IH by exact Hs. reflexivity.
Qed.

Lemma split_lacks (sep : char) (s : str) :
  lacks sep s = true -> split sep s = [s].
Proof.
  induction s as [|c s IH]; simpl; [reflexivity|].
  intros H. apply andb_prop in H as [Hc Hs].
  apply negb_true_iff in Hc. rewrite Hc, IH by exact Hs. reflexivity.
Qed.

Lemma split_snoc_sep (sep : char) (s : str) :
  split sep (s ++ [sep]) = split sep s ++ [[]].
Proof.
  induction s as [|c s IH]; simpl.
  - rewrite N.eqb_refl. reflexivity.
  - rewrite IH. destruct (c =? sep)%N; [reflexivity|].
    pose proof (split_nonempty sep s).
    destruct (split sep s); [congruence|reflexivity].
Qed.

(** No segment contains the separator, and none contains a character
    the string lacks. *)
Lemma split_segments_lack_sep (sep : char) (s : str) :
  forallb (lacks sep) (split sep s) = true.
Proof.
  induction s as [|c s IH]; simpl; [reflexivity|].
  destruct (c =? sep)%N eqn:E; [exact IH|].
  pose proof (split_nonempty sep s).
  destruct (split sep s) as [|seg segs]; [congruence|].
  simpl in *. rewrite E. exact IH.
Qed.

Lemma split_segments_lack (sep c : char) (s : str) :
  lacks c s = true -> forallb (lacks c) (split sep s) = true.
Proof.
  induction s as [|d s IH]; simpl; [reflexivity|].
  intros H. apply andb_prop in H as [Hd Hs]. specialize (IH Hs).
  destruct (d =? sep)%N; [exact IH|].
  pose proof (split_nonempty sep s).
  destruct (split sep s) as [|seg segs]; [congruence|].
  simpl in *. rewrite Hd. exact IH.
Qed.

(** [split] undoes [join] on a non-empty list of strings without the
    separator. *)
Lemma split_join (sep : char) (parts : list str) :
  parts <> [] -> forallb (lacks sep) parts = true ->
  split sep (join [sep] parts) = parts.
Proof.
  induction parts as [|p ps IH]; [congruence|]. intros _ H.
  simpl in H. apply andb_prop in H as [Hp Hps].
  destruct ps as [|q ps].
  - apply split_lacks, Hp.
  - change (join [sep] (p :: q :: ps)) with (p ++ sep :: join [sep] (q :: ps)).
    rewrite split_app_sep, IH by (assumption || discriminate). reflexivity.
Qed.

Lemma join_lacks (c : char) (sep : str) (parts : list str) :
  lacks c sep = true -> forallb (lacks c) parts = true ->
  lacks c (join sep parts) = true.
Proof.
  intros Hsep. induction parts as [|p ps IH]; [reflexivity|]. intros H.
  simpl in H. apply andb_prop in H as [Hp Hps].
  destruct ps as [|q ps]; [exact Hp|].
  change (join sep (p :: q :: ps)) with (p ++ sep ++ join sep (q :: ps)).
  rewrite !lacks_app, Hp, Hsep, IH by exact Hps. reflexivity.
Qed.

Lemma In_slice_1_m1 {A : Type} (x : A) (l : list A) :
  In x (slice_1_m1 l) -> In x l.
Proof.
  unfold slice_1_m1. destruct l as [|a l]; simpl; [tauto|].
  intros H. right. revert H.
  induction l as [|b l IH]; simpl; [tauto|].
  destruct l as [|c l]; [simpl; tauto|].
  intros [->|H]; [left; reflexivity|right; apply IH, H].
Qed.

(** ** Parsing an aligned line *)

Lemma space_is_space : is_space space = true.
Proof. reflexivity. Qed.

Lemma split_joined_cells (cells : list str) :
  cells <> [] -> forallb (lacks pipe) cells = true ->
  split pipe (space :: join (lit " | ") cells ++ [space; pipe])
  = List.map (fun cell => space :: cell ++ [space]) cells ++ [[]].
Proof.
  induction cells as [|cell cells IH]; [congruence|]. intros _ H.
  simpl in H. apply andb_prop in H as [Hc Hcs].
  assert (Hw : lacks pipe (space :: cell ++ [space]) = true)
    by (rewrite lacks_cons, lacks_app, Hc; reflexivity).
  destruct cells as [|cell' cells].
  - simpl join. simpl List.map.
    change (space :: cell ++ [space; pipe])
      with ((space :: cell) ++ [space] ++ pipe :: []).
    rewrite app_assoc, split_app_sep by (rewrite <- app_comm_cons; exact Hw).
    reflexivity.
  - change (join (lit " | ") (cell :: cell' :: cells))
      with (cell ++ (space :: pipe :: [space]) ++ join (lit " | ") (cell' :: cells)).
    replace (space :: (cell ++ (space :: pipe :: [space])
                         ++ join (lit " | ") (cell' :: cells)) ++ [space; pipe])
      with ((space :: cell ++ [space])
              ++ pipe :: (space :: join (lit " | ") (cell' :: cells)
                                ++ [space; pipe]))
      by (simpl; rewrite <- !app_assoc; reflexivity).
    rewrite split_app_sep by exact Hw.
    rewrite IH by (assumption || discriminate). reflexivity.
Qed.

Lemma slice_1_m1_framed {A : Type} (a b : A) (l : list A) :
  slice_1_m1 (a :: l ++ [b]) = l.
Proof. unfold slice_1_m1. simpl tl. apply removelast_last. Qed.

(** An aligned line with at least one cell parses back to its cells,
    trimmed. *)
Lemma parse_row_join_cells (cells : list str) :
  cells <> [] -> forallb (lacks pipe) cells = true ->
  parse_row (join_cells cells) = List.map strip cells.
Proof.
  intros Hne Hp. unfold parse_row. cbv zeta.
  rewrite strip_join_cells.
  change (join_cells cells)
    with (pipe :: space :: join (lit " | ") cells ++ [space; pipe]).
  change (split pipe (pipe :: ?x)) with ([] :: split pipe x).
  rewrite split_joined_cells by assumption.
  rewrite slice_1_m1_framed, map_map. apply map_ext. intros cell.
  apply (strip_pad [space] [space] cell); reflexivity.
Qed.

(** ** Cells as the parser produces them *)

Lemma clean_nil : clean [].
Proof. split; reflexivity. Qed.

Lemma parse_row_clean (line : str) : Forall clean (parse_row line).
Proof.
  unfold parse_row. cbv zeta. apply Forall_forall. intros cell H.
  apply in_map_iff in H as [seg [<- Hseg]]. apply In_slice_1_m1 in Hseg.
  split; [apply strip_idem|]. apply lacks_strip.
  pose proof (split_segments_lack_sep pipe (strip line)) as Hs.
  rewrite forallb_forall in Hs. apply Hs, Hseg.
Qed.

Lemma pad_row_clean (n : nat) (row : list str) :
  Forall clean row -> Forall clean (pad_row n row).
Proof.
  intros H. unfold pad_row. apply Forall_app. split; [exact H|].
  apply Forall_forall. intros cell Hc. apply repeat_spec in Hc. subst cell.
  apply clean_nil.
Qed.

Lemma padded_clean (table_lines : list str) :
  Forall (Forall clean) (padded (parse_rows table_lines)).
Proof.
  unfold padded, parse_rows. rewrite !Forall_map. apply Forall_forall.
  intros line _. apply pad_row_clean, parse_row_clean.
Qed.

Lemma nth_clean (row : list str) (col : nat) :
  Forall clean row -> clean (nth col row []).
Proof.
  intros H. destruct (Nat.lt_ge_cases col (length row)) as [Hlt|Hge].
  - rewrite Forall_forall in H. apply H, nth_In, Hlt.
  - rewrite nth_overflow by exact Hge. apply clean_nil.
Qed.

(** ** Rendering a cell twice *)

Lemma strip_no_space (s : str) :
  forallb (fun c => negb (is_space c)) s = true -> strip s = s.
Proof.
  intros H. destruct s as [|c s]; [reflexivity|].
  destruct (exists_last (l := c :: s)) as [t [d E]]; [discriminate|].
  rewrite E in *. rewrite forallb_app in H. apply andb_prop in H as [Ht Hd].
  simpl in Hd. rewrite andb_true_r in Hd. apply negb_true_iff in Hd.
  destruct t as [|e t].
  - apply strip_single, Hd.
  - simpl in Ht. apply andb_prop in Ht as [He _]. apply negb_true_iff in He.
    apply (strip_fixed e d t He Hd).
Qed.

Lemma separator_rendering_chars (a b : bool) (w : nat) (P : char -> bool) :
  P dash = true -> P colon = true ->
  forallb P (separator_rendering a b w) = true.
Proof.
  intros Hd Hc.
  assert (Hr : forall n, forallb P (dashes n) = true).
  { induction n as [|n IH]; simpl; [reflexivity|]. rewrite Hd. exact IH. }
  destruct a, b; unfold separator_rendering;
    rewrite ?forallb_app, ?Hr; simpl; rewrite ?Hc; reflexivity.
Qed.

Lemma separator_rendering_is_sep (a b : bool) (w : nat) :
  is_sep_cell (separator_rendering a b w) = true.
Proof.
  rewrite is_sep_cell_forallb.
  apply separator_rendering_chars; reflexivity.
Qed.

Lemma strip_separator_rendering (a b : bool) (w : nat) :
  strip (separator_rendering a b w) = separator_rendering a b w.
Proof.
  apply strip_no_space, separator_rendering_chars; reflexivity.
Qed.

(** What the parser reads back from a rendered cell. *)
Lemma strip_render_cell (cell : str) (w : nat) :
  clean cell ->
  strip (render_cell cell w)
  = if is_sep_cell cell then render_cell cell w else cell.
Proof.
  intros [Hs _]. destruct (is_sep_cell cell) eqn:E.
  - rewrite render_cell_sep by exact E. apply strip_separator_rendering.
  - rewrite render_cell_regular by exact E. unfold ljust.
    transitivity (strip cell); [|exact Hs].
    apply (strip_pad [] (repeat space (w - length cell)) cell);
      [reflexivity|].
    apply forallb_forall. intros c Hc. apply repeat_spec in Hc. subst c.
    reflexivity.
Qed.

Lemma is_sep_strip_render_cell (cell : str) (w : nat) :
  clean cell ->
  is_sep_cell (strip (render_cell cell w)) = is_sep_cell cell.
Proof.
  intros Hc. rewrite strip_render_cell by exact Hc.
  destruct (is_sep_cell cell) eqn:E; [|exact E].
  rewrite render_cell_sep by exact E. apply separator_rendering_is_sep.
Qed.

Lemma contribution_strip_render_cell (cell : str) (w : nat) :
  clean cell ->
  contribution (strip (render_cell cell w)) = contribution cell.
Proof.
  intros Hc. unfold contribution.
  rewrite is_sep_strip_render_cell by exact Hc.
  destruct (is_sep_cell cell) eqn:E; [reflexivity|].
  rewrite strip_render_cell, E by exact Hc. reflexivity.
Qed.

(** Rendering what was read back gives the same cell again. *)
Lemma render_cell_again (cell : str) (w : nat) :
  clean cell -> contribution cell <= w ->
  render_cell (strip (render_cell cell w)) w = render_cell cell w.
Proof.
  intros Hc Hw. rewrite strip_render_cell by exact Hc.
  unfold contribution in Hw.
  destruct (is_sep_cell cell) eqn:E; [|reflexivity].
  rewrite (render_cell_sep cell) by exact E.
  rewrite render_cell_sep by apply separator_rendering_is_sep.
  rewrite separator_rendering_leading, separator_rendering_trailing
    by exact Hw.
  reflexivity.
Qed.

Lemma render_cell_lacks (c : char) (cell : str) (w : nat) :
  (dash =? c)%N = false -> (colon =? c)%N = false ->
  (space =? c)%N = false ->
  lacks c cell = true -> lacks c (render_cell cell w) = true.
Proof.
  intros Hd Hc Hs H. destruct (is_sep_cell cell) eqn:E.
  - rewrite render_cell_sep by exact E.
    apply separator_rendering_chars; [rewrite Hd|rewrite Hc]; reflexivity.
  - rewrite render_cell_regular by exact E. unfold ljust.
    rewrite lacks_app, H, lacks_repeat by exact Hs. reflexivity.
Qed.

(** ** Aligning an aligned block *)

Section Realign.

Variable rows0 : list (list str).
Hypothesis rows0_clean : Forall (Forall clean) (padded rows0).

Let n := num_cols_val rows0.
Let ws := col_widths_val rows0.

Lemma padded_row_length (prow : list str) :
  In prow (padded rows0) -> length prow = length ws.
Proof.
  intros H. pose proof (padded_length rows0) as Hp.
  rewrite Forall_forall in Hp. unfold ws.
  rewrite col_widths_val_length. apply Hp, H.
Qed.

Lemma padded_row_clean (prow : list str) :
  In prow (padded rows0) -> Forall clean prow.
Proof. intros H. rewrite Forall_forall in rows0_clean. apply rows0_clean, H. Qed.

Lemma padded_row_fits (prow : list str) (col : nat) :
  In prow (padded rows0) -> col < n ->
  contribution (nth col prow []) <= nth col ws 0.
Proof.
  intros H Hc. unfold padded in H. apply in_map_iff in H as [row0 [<- H0]].
  rewrite pad_row_nth. unfold ws. rewrite col_widths_val_nth by exact Hc.
  apply contribution_le_width, H0.
Qed.

Lemma reread_row_length (prow : list str) :
  In prow (padded rows0) -> length (reread_row ws prow) = n.
Proof.
  intros H. unfold reread_row.
  rewrite length_map, render_row_val_length by apply padded_row_length, H.
  apply col_widths_val_length.
Qed.

Lemma reread_row_nth (prow : list str) (col : nat) :
  In prow (padded rows0) ->
  nth col (reread_row ws prow) []
  = strip (render_cell (nth col prow []) (nth col ws 0)).
Proof.
  intros H. unfold reread_row.
  change (@nil char) with (strip []) at 1.
  rewrite map_nth, render_row_val_nth by apply padded_row_length, H.
  reflexivity.
Qed.

Lemma render_reread_row (prow : list str) :
  In prow (padded rows0) ->
  render_row_val ws (reread_row ws prow) = render_row_val ws prow.
Proof.
  intros H. pose proof (padded_row_length prow H) as Hlen.
  assert (Hlen' : length (reread_row ws prow) = length ws).
  { rewrite reread_row_length by exact H. symmetry.
    apply col_widths_val_length. }
  apply (nth_ext _ _ ([] : str) ([] : str)).
  - rewrite !render_row_val_length by assumption. reflexivity.
  - intros col Hcol. rewrite render_row_val_length in Hcol by exact Hlen'.
    rewrite !render_row_val_nth by assumption.
    rewrite reread_row_nth by exact H.
    apply render_cell_again.
    + apply nth_clean, padded_row_clean, H.
    + apply padded_row_fits; [exact H|].
      unfold ws in Hcol. rewrite col_widths_val_length in Hcol. exact Hcol.
Qed.

Lemma render_row_val_lacks_pipe (prow : list str) :
  In prow (padded rows0) ->
  forallb (lacks pipe) (render_row_val ws prow) = true.
Proof.
  intros H. apply forallb_forall. intros out Hout.
  unfold render_row_val in Hout. apply in_map_iff in Hout as [[cell w] [<- Hp]].
  apply in_combine_l in Hp. simpl.
  apply render_cell_lacks; try reflexivity.
  pose proof (padded_row_clean prow H) as Hc. rewrite Forall_forall in Hc.
  apply Hc, Hp.
Qed.

Let reread := reread_rows rows0.

Hypothesis has_cell : 1 <= n.

Lemma parse_aligned :
  parse_rows (List.map join_cells (cells_val rows0)) = reread.
Proof.
  unfold parse_rows, cells_val, reread, reread_rows. rewrite !map_map.
  apply map_ext_in. intros prow H. fold ws.
  apply parse_row_join_cells.
  - intros E. apply (f_equal (@length str)) in E.
    rewrite render_row_val_length in E by apply padded_row_length, H.
    unfold ws in E. rewrite col_widths_val_length in E. simpl in E.
    fold n in E. lia.
  - apply render_row_val_lacks_pipe, H.
Qed.

Hypothesis has_row : rows0 <> [].

Lemma list_max_const (l : list nat) (k : nat) :
  l <> [] -> Forall (fun x => x = k) l -> list_max l = k.
Proof.
  intros Hne H. induction H as [|x l -> _ IH]; [congruence|].
  change (list_max (k :: l)) with (Nat.max k (list_max l)).
  destruct l as [|y l]; [simpl; lia|].
  rewrite IH by discriminate. lia.
Qed.

Lemma reread_num_cols : num_cols_val reread = n.
Proof.
  unfold num_cols_val at 1. apply list_max_const.
  - unfold reread, reread_rows, padded.
    destruct rows0; [congruence|discriminate].
  - unfold reread, reread_rows. rewrite !Forall_map. apply Forall_forall.
    intros prow H. apply reread_row_length, H.
Qed.

Lemma reread_padded : padded reread = reread.
Proof.
  unfold padded at 1. rewrite reread_num_cols.
  rewrite <- (map_id reread) at 2. apply map_ext_in.
  intros row H. unfold reread, reread_rows in H.
  apply in_map_iff in H as [prow [<- H]].
  unfold pad_row. rewrite reread_row_length by exact H.
  rewrite Nat.sub_diag. apply app_nil_r.
Qed.

Lemma reread_width (col : nat) : width_val reread col = width_val rows0 col.
Proof.
  unfold width_val, reread, reread_rows. rewrite map_map.
  transitivity (list_max (List.map (fun prow => contribution (nth col prow []))
                                   (padded rows0))).
  - f_equal. apply map_ext_in. intros prow H.
    rewrite reread_row_nth by exact H.
    apply contribution_strip_render_cell, nth_clean, padded_row_clean, H.
  - unfold padded. rewrite map_map. f_equal. apply map_ext.
    intros row. rewrite pad_row_nth. reflexivity.
Qed.

Lemma reread_col_widths : col_widths_val reread = ws.
Proof.
  unfold col_widths_val. rewrite reread_num_cols. apply map_ext.
  apply reread_width.
Qed.

Lemma reread_cells : cells_val reread = cells_val rows0.
Proof.
  unfold cells_val. rewrite reread_col_widths, reread_padded.
  unfold reread, reread_rows. rewrite map_map. apply map_ext_in.
  intros prow H. apply render_reread_row, H.
Qed.

End Realign.

(** Aligning the aligned lines of a block that has a cell changes
    nothing. *)
Lemma aligned_val_fixed (table_lines : list str) :
  table_lines <> [] ->
  1 <= num_cols_val (parse_rows table_lines) ->
  aligned_val (aligned_val table_lines) = aligned_val table_lines.
Proof.
  intros Hne Hn. unfold aligned_val at 1 3.
  unfold aligned_val. rewrite parse_aligned.
  - rewrite reread_cells; [reflexivity|apply padded_clean|exact Hn|].
    destruct table_lines; [congruence|discriminate].
  - apply padded_clean.
  - exact Hn.
Qed.

(** ** A second pass over the output *)

(** A table row, trimmed, is a lone pipe or is framed by two pipes. *)
Lemma table_row_shape (line : str) :
  is_table_row line = true ->
  strip line = [pipe] \/ exists t, strip line = pipe :: t ++ [pipe].
Proof.
  unfold is_table_row. cbv zeta. change (lit "|") with [pipe].
  intros H. apply andb_prop in H as [Hs He].
  apply startswith_single in Hs as [t Hs].
  apply endswith_single in He as [t' He].
  destruct t' as [|c t'].
  - left. exact He.
  - right. exists t'. rewrite He in Hs. injection Hs as -> _. exact He.
Qed.

Lemma table_row_has_cell (line : str) :
  is_table_row line = true -> is_lone_pipe line = false ->
  parse_row line <> [].
Proof.
  intros Ht Hl. unfold is_lone_pipe in Hl. unfold parse_row. cbv zeta.
  destruct (table_row_shape line Ht) as [He|[t' He]].
  - rewrite He in Hl. discriminate.
  - rewrite He.
    change (split pipe (pipe :: t' ++ [pipe]))
      with ([] :: split pipe (t' ++ [pipe])).
    rewrite split_snoc_sep, slice_1_m1_framed.
    pose proof (split_nonempty pipe t') as Hne.
    destruct (split pipe t'); [congruence|discriminate].
Qed.

Lemma block_has_cell (line : str) (table_lines : list str) :
  is_table_row line = true -> is_lone_pipe line = false ->
  1 <= num_cols_val (parse_rows (line :: table_lines)).
Proof.
  intros Ht Hl. pose proof (table_row_has_cell line Ht Hl) as Hne.
  pose proof (length_le_list_max (parse_rows (line :: table_lines))
                (parse_row line) (or_introl eq_refl)) as Hle.
  assert (Hlen : 1 <= length (parse_row line))
    by (destruct (parse_row line); [congruence|simpl; lia]).
  unfold num_cols_val. lia.
Qed.

Lemma blank_needed_before_app (result tail : list str) :
  tail <> [] ->
  blank_needed_before (result ++ tail) = blank_needed_before tail.
Proof.
  intros Hne. destruct (exists_last Hne) as [t [x ->]].
  rewrite app_assoc, !blank_needed_before_snoc. reflexivity.
Qed.

Lemma fix_loop_blank (b : bool) (lines result : list str) :
  fix_loop (blank_if b ++ lines) result
  = fix_loop lines (result ++ blank_if b).
Proof.
  destruct b; simpl.
  - apply fix_loop_line, nil_not_table_row.
  - rewrite app_nil_r. reflexivity.
Qed.

Lemma blank_before_settled (result : list str) :
  blank_needed_before (result ++ blank_if (blank_needed_before result))
  = false.
Proof.
  destruct (blank_needed_before result) eqn:E; simpl.
  - apply blank_needed_before_snoc.
  - rewrite app_nil_r. exact E.
Qed.

Lemma ends_block_blank (b : bool) (lines : list str) :
  ends_block lines = true -> ends_block (blank_if b ++ lines) = true.
Proof. destruct b; [reflexivity|auto]. Qed.

Lemma blank_after_settled (rest lines : list str) :
  blank_needed_after lines = blank_needed_after rest ->
  blank_needed_after (blank_if (blank_needed_after rest) ++ lines) = false.
Proof.
  intros H. destruct (blank_needed_after rest) eqn:E; [reflexivity|exact H].
Qed.

Lemma second_pass (lines : list str) :
  no_lone_pipe lines = true ->
  forall result result',
    blank_needed_before result' = blank_needed_before result ->
    exists emitted,
      fix_loop lines result = Some (result ++ emitted) /\
      fix_loop emitted result' = Some (result' ++ emitted) /\
      (ends_block lines = true ->
       ends_block emitted = true /\
       blank_needed_after emitted = blank_needed_after lines).
Proof.
  induction lines as [|line rest Hl IH|line tl rest Ht Hr IH] using block_ind;
    intros Hnp result result' Hb.
  - exists []. simp fix_loop. rewrite !app_nil_r. auto.
  - simpl in Hnp. apply andb_prop in Hnp as [_ Hnp].
    destruct (IH Hnp (result ++ [line]) (result' ++ [line])) as [e [H1 [H2 _]]].
    { rewrite !blank_needed_before_snoc. reflexivity. }
    exists (line :: e). rewrite !fix_loop_line, H1, H2, <- !app_assoc by exact Hl.
    repeat split. simpl. rewrite Hl. reflexivity.
  - unfold no_lone_pipe in Hnp. rewrite forallb_app in Hnp.
    apply andb_prop in Hnp as [Hblock Hnp]. fold (no_lone_pipe rest) in Hnp.
    simpl in Hblock. apply andb_prop in Hblock as [Hlone _].
    apply negb_true_iff in Hlone.
    pose proof Ht as Ht'. simpl in Ht'. apply andb_prop in Ht' as [Hline _].
    pose proof (block_has_cell line tl Hline Hlone) as Hcell.
    set (A := aligned_val (line :: tl)) in *.
    set (B := blank_if (blank_needed_before result)).
    set (F := blank_if (blank_needed_after rest)).
    assert (HA : exists a A', A = a :: A').
    { pose proof (aligned_val_length (line :: tl)) as HlenA. fold A in HlenA.
      destruct A as [|a A']; [discriminate|eauto]. }
    destruct HA as [a [A' HA]].
    assert (Hne : B ++ A ++ F <> []).
    { rewrite HA. destruct B; discriminate. }
    destruct (IH Hnp (result ++ B ++ A ++ F) (result' ++ B ++ A ++ F))
      as [e [H1 [H2 H3]]].
    { rewrite (blank_needed_before_app result _ Hne).
      rewrite (blank_needed_before_app result' _ Hne). reflexivity. }
    destruct (H3 Hr) as [He Hbe].
    exists (B ++ A ++ F ++ e). split; [|split].
    + rewrite fix_loop_block by assumption. fold A B F.
      rewrite H1, <- !app_assoc. reflexivity.
    + unfold B at 1. rewrite fix_loop_blank. fold B.
      assert (HrowsA : forallb is_table_row (a :: A') = true)
        by (rewrite <- HA; apply aligned_val_rows).
      rewrite HA, fix_loop_block; [|exact HrowsA|apply ends_block_blank, He].
      rewrite <- HA.
      assert (Hfix : aligned_val A = A)
        by (apply aligned_val_fixed; [discriminate|exact Hcell]).
      rewrite Hfix.
      assert (Hbb : blank_needed_before (result' ++ B) = false).
      { unfold B. rewrite <- Hb. apply blank_before_settled. }
      assert (Hba : blank_needed_after (F ++ e) = false)
        by (unfold F; apply blank_after_settled, Hbe).
      rewrite Hbb, Hba. simpl blank_if. rewrite app_nil_r.
      unfold F at 1. rewrite fix_loop_blank. fold F.
      rewrite <- !app_assoc in *. change ([] ++ A ++ F) with (A ++ F).
      rewrite H2. reflexivity.
    + intros Hends. simpl in Hends. rewrite Hline in Hends. discriminate.
Qed.

(** ** The lines of the output *)

Lemma parse_row_lacks (c : char) (line : str) :
  lacks c line = true -> forallb (lacks c) (parse_row line) = true.
Proof.
  intros H. unfold parse_row. cbv zeta. apply forallb_forall.
  intros cell Hc. apply in_map_iff in Hc as [seg [<- Hseg]].
  apply In_slice_1_m1 in Hseg. apply lacks_strip.
  pose proof (split_segments_lack pipe c (strip line) (lacks_strip c line H))
    as Hs.
  rewrite forallb_forall in Hs. apply Hs, Hseg.
Qed.

Lemma pad_row_lacks (c : char) (n : nat) (row : list str) :
  forallb (lacks c) row = true -> forallb (lacks c) (pad_row n row) = true.
Proof.
  intros H. unfold pad_row. rewrite forallb_app, H. simpl.
  induction (n - length row) as [|k IH]; [reflexivity|exact IH].
Qed.

Lemma render_row_val_lacks (c : char) (ws : list nat) (row : list str) :
  (dash =? c)%N = false -> (colon =? c)%N = false ->
  (space =? c)%N = false ->
  forallb (lacks c) row = true ->
  forallb (lacks c) (render_row_val ws row) = true.
Proof.
  intros Hd Hc Hs H. apply forallb_forall. intros out Hout.
  unfold render_row_val in Hout.
  apply in_map_iff in Hout as [[cell w] [<- Hp]].
  apply in_combine_l in Hp. simpl.
  apply render_cell_lacks; try assumption.
  rewrite forallb_forall in H. apply H, Hp.
Qed.

Lemma join_cells_lacks (c : char) (cells : list str) :
  (pipe =? c)%N = false -> (space =? c)%N = false ->
  forallb (lacks c) cells = true -> lacks c (join_cells cells) = true.
Proof.
  intros Hp Hs H. unfold join_cells.
  change (lit "| ") with [pipe; space].
  change (lit " |") with [space; pipe].
  change (lit " | ") with [space; pipe; space].
  rewrite !lacks_app, join_lacks;
    [|rewrite !lacks_cons, Hp, Hs; reflexivity|exact H].
  rewrite !lacks_cons, Hp, Hs. reflexivity.
Qed.

(** The aligned lines hold no character that the block did not hold,
    apart from pipes, dashes, colons and spaces. *)
Lemma aligned_val_lacks (c : char) (table_lines : list str) :
  (pipe =? c)%N = false -> (dash =? c)%N = false ->
  (colon =? c)%N = false -> (space =? c)%N = false ->
  forallb (lacks c) table_lines = true ->
  forallb (lacks c) (aligned_val table_lines) = true.
Proof.
  intros Hp Hd Hc Hs H. unfold aligned_val, cells_val, padded, parse_rows.
  rewrite !map_map. apply forallb_forall. intros out Hout.
  apply in_map_iff in Hout as [line [<- Hline]].
  apply join_cells_lacks; try assumption.
  apply render_row_val_lacks; try assumption.
  apply pad_row_lacks, parse_row_lacks.
  rewrite forallb_forall in H. apply H, Hline.
Qed.

Lemma join_cells_not_lone_pipe (cells : list str) :
  is_lone_pipe (join_cells cells) = false.
Proof.
  unfold is_lone_pipe. rewrite strip_join_cells.
  change (join_cells cells)
    with (pipe :: space :: join (lit " | ") cells ++ [space; pipe]).
  reflexivity.
Qed.

Lemma lone_pipe_is_table_row (line : str) :
  is_lone_pipe line = true -> is_table_row line = true.
Proof.
  unfold is_lone_pipe, is_table_row. cbv zeta.
  destruct (strip line) as [|c [|d s]]; try discriminate.
  intros H. apply N.eqb_eq in H. subst c. reflexivity.
Qed.

Lemma text_line_not_lone_pipe (line : str) :
  is_table_row line = false -> is_lone_pipe line = false.
Proof.
  intros H. destruct (is_lone_pipe line) eqn:E; [|reflexivity].
  apply lone_pipe_is_table_row in E. congruence.
Qed.

Lemma aligned_val_no_lone_pipe (table_lines : list str) :
  no_lone_pipe (aligned_val table_lines) = true.
Proof.
  unfold no_lone_pipe, aligned_val. apply forallb_forall. intros out Hout.
  apply in_map_iff in Hout as [cells [<- _]].
  rewrite join_cells_not_lone_pipe. reflexivity.
Qed.

Lemma reflowed_aligned (line : str) (table_lines aligned : list str) :
  align_table (line :: table_lines) = Some aligned ->
  aligned = aligned_val (line :: table_lines).
Proof. rewrite align_table_aligned. congruence. Qed.

(** No line of the output is a lone pipe. *)
Lemma reflowed_no_lone_pipe (src out : list str) :
  reflowed src out -> no_lone_pipe out = true.
Proof.
  unfold no_lone_pipe.
  induction 1 as [|line src' out' Hl _ IH
                  |line tl aligned before after src' out' _ _ Ha _ Hb Hf _ IH].
  - reflexivity.
  - simpl. rewrite text_line_not_lone_pipe by exact Hl. exact IH.
  - apply reflowed_aligned in Ha. subst aligned.
    rewrite !forallb_app, IH. fold (no_lone_pipe (aligned_val (line :: tl))).
    rewrite aligned_val_no_lone_pipe.
    destruct Hb as [-> | ->], Hf as [-> | ->]; reflexivity.
Qed.

Lemma reflowed_nonempty (src out : list str) :
  reflowed src out -> src <> [] -> out <> [].
Proof.
  destruct 1 as [|line src' out' _ _
                 |line tl aligned before after src' out' _ _ Ha _ _ _ _];
    intros Hne.
  - congruence.
  - discriminate.
  - apply reflowed_aligned in Ha.
    pose proof (aligned_val_length (line :: tl)) as Hlen. rewrite <- Ha in Hlen.
    destruct aligned; [discriminate|]. destruct before; discriminate.
Qed.

Lemma reflowed_lacks_newline (src out : list str) :
  reflowed src out ->
  forallb (lacks newline) src = true -> forallb (lacks newline) out = true.
Proof.
  induction 1 as [|line src' out' _ _ IH
                  |line tl aligned before after src' out' _ _ Ha _ Hb Hf _ IH].
  - reflexivity.
  - simpl. intros H. apply andb_prop in H as [-> H]. apply IH, H.
  - intros H. rewrite forallb_app in H. apply andb_prop in H as [Ht Hs].
    apply reflowed_aligned in Ha. subst aligned.
    rewrite !forallb_app, IH by exact Hs.
    rewrite aligned_val_lacks by (reflexivity || exact Ht).
    destruct Hb as [-> | ->], Hf as [-> | ->]; reflexivity.
Qed.

(** The lines of the output of [fix_tables_in_content] are the ones the
    loop returned. *)
Lemma split_output (content : str) (lines : list str) :
  fix_loop (split newline content) [] = Some lines ->
  split newline (join [newline] lines) = lines /\
  no_lone_pipe lines = true.
Proof.
  intros H.
  destruct (fix_loop_reflowed (split newline content) []) as [e [He Hre]].
  simpl in He. rewrite He in H. injection H as <-.
  split; [|apply (reflowed_no_lone_pipe _ _ Hre)].
  apply split_join.
  - apply (reflowed_nonempty _ _ Hre), split_nonempty.
  - apply (reflowed_lacks_newline _ _ Hre), split_segments_lack_sep.
Qed.

(** A pass over a document without lone pipes returns a document on
    which a further pass changes nothing. *)
Lemma fix_tables_fixed_point (content out : str) :
  no_lone_pipe (split newline content) = true ->
  fix_tables_in_content content = Some out ->
  fix_tables_in_content out = Some out.
Proof.
  intros Hnp H. unfold fix_tables_in_content in *. cbv zeta in *.
  destruct (second_pass (split newline content) Hnp [] [] eq_refl)
    as [e [H1 [H2 _]]].
  simpl in H1, H2. rewrite H1 in H. simpl in H. injection H as <-.
  destruct (split_output content e H1) as [Hs _].
  rewrite Hs, H2. reflexivity.
Qed.

(** ** Normalising one row *)

Lemma combine_seq_snoc {A : Type} (k : nat) (l : list A) (a : A) :
  combine (seq k (length (l ++ [a]))) (l ++ [a])
  = combine (seq k (length l)) l ++ [(k + length l, a)].
Proof.
  revert k. induction l as [|x l IH]; intros k; simpl.
  - rewrite Nat.add_0_r. reflexivity.
  - rewrite IH, Nat.add_succ_r. reflexivity.
Qed.

(** The rows of a table row, as [split] returns them: an empty string,
    the raw cells, an empty string. *)
Lemma split_table_row (line : str) :
  is_table_row line = true ->
  split pipe (strip line)
  = [] :: slice_1_m1 (split pipe (strip line)) ++ [[]].
Proof.
  intros H. destruct (table_row_shape line H) as [E|[t E]]; rewrite E.
  - reflexivity.
  - change (split pipe (pipe :: t ++ [pipe]))
      with ([] :: split pipe (t ++ [pipe])).
    rewrite split_snoc_sep, slice_1_m1_framed. reflexivity.
Qed.

Section NormalizeCells.

Variable last_index : Z.

Let F (ic : nat * str) : str :=
  let (i, cell) := ic in
  if (i =? 0) || (Z.of_nat i =? last_index)%Z then []
  else
    let content := strip cell in
    lit " " ++ content ++ lit " ".

Lemma normalize_middle (middle : list str) (k : nat) :
  0 < k -> (Z.of_nat (k + length middle) <= last_index)%Z ->
  List.map F (combine (seq k (length middle)) middle)
  = List.map (fun cell => spaced (strip cell)) middle.
Proof.
  revert k. induction middle as [|cell middle IH]; intros k Hk Hl;
    [reflexivity|].
  simpl in *. rewrite IH by lia.
  replace (k =? 0) with false by (symmetry; apply Nat.eqb_neq; lia).
  replace (Z.of_nat k =? last_index)%Z with false
    by (symmetry; apply Z.eqb_neq; lia).
  reflexivity.
Qed.

Lemma normalize_framed (first last : str) (middle : list str) :
  last_index = Z.of_nat (S (length middle)) ->
  List.map F (enumerate (first :: middle ++ [last]))
  = [] :: List.map (fun cell => spaced (strip cell)) middle ++ [[]].
Proof.
  intros Hl. unfold enumerate.
  change (length (first :: middle ++ [last]))
    with (S (length (middle ++ [last]))).
  cbn [seq combine List.map]. rewrite combine_seq_snoc, map_app.
  rewrite normalize_middle by lia.
  cbn [List.map F]. unfold F.
  replace (Z.of_nat (1 + length middle) =? last_index)%Z with true
    by (symmetry; apply Z.eqb_eq; lia).
  rewrite orb_true_r. reflexivity.
Qed.

End NormalizeCells.

(** A table row is normalised to its cells, each between single spaces,
    between pipes. *)
Lemma normalize_table_row_cells (line : str) :
  is_table_row line = true ->
  normalize_table_row line
  = join [pipe] ([] :: List.map spaced (parse_row line) ++ [[]]).
Proof.
  intros H. pose proof (split_table_row line H) as E.
  unfold normalize_table_row, parse_row. rewrite H. cbv zeta. simpl negb.
  cbv iota. change (lit "|") with [pipe].
  remember (slice_1_m1 (split pipe (strip line))) as middle eqn:Hm.
  clear Hm. rewrite E, map_map. f_equal.
  apply normalize_framed.
  cbn [length]. rewrite length_app. cbn [length]. lia.
Qed.

Lemma join_snoc (sep p : str) (parts : list str) :
  parts <> [] -> join sep (parts ++ [p]) = join sep parts ++ sep ++ p.
Proof.
  induction parts as [|q parts IH]; [congruence|]. intros _.
  destruct parts as [|r parts]; [reflexivity|].
  change (join sep ((q :: r :: parts) ++ [p]))
    with (q ++ sep ++ join sep ((r :: parts) ++ [p])).
  rewrite IH by discriminate.
  change (join sep (q :: r :: parts)) with (q ++ sep ++ join sep (r :: parts)).
  rewrite <- !app_assoc. reflexivity.
Qed.

Lemma join_cons (sep p : str) (parts : list str) :
  parts <> [] -> join sep (p :: parts) = p ++ sep ++ join sep parts.
Proof. destruct parts; [congruence|reflexivity]. Qed.

(** Cells between pipes: a lone pipe when there is no cell, and a string
    framed by two pipes otherwise. *)
Lemma framed_shape (parts : list str) :
  join [pipe] ([] :: parts ++ [[]])
  = match parts with
    | [] => [pipe]
    | _ :: _ => pipe :: join [pipe] parts ++ [pipe]
    end.
Proof.
  destruct parts as [|p parts]; [reflexivity|].
  rewrite join_cons by discriminate.
  rewrite join_snoc by discriminate. rewrite app_nil_r. reflexivity.
Qed.

Lemma strip_framed (parts : list str) :
  strip (join [pipe] ([] :: parts ++ [[]]))
  = join [pipe] ([] :: parts ++ [[]]).
Proof.
  rewrite framed_shape. destruct parts.
  - apply strip_single, pipe_not_space.
  - apply strip_fixed; apply pipe_not_space.
Qed.

Lemma framed_is_table_row (parts : list str) :
  is_table_row (join [pipe] ([] :: parts ++ [[]])) = true.
Proof.
  unfold is_table_row. cbv zeta. rewrite strip_framed, framed_shape.
  change (lit "|") with [pipe]. destruct parts; [reflexivity|].
  rewrite startswith_cons, app_comm_cons, endswith_snoc. reflexivity.
Qed.

Lemma spaced_lacks_pipe (cell : str) :
  lacks pipe cell = true -> lacks pipe (spaced cell) = true.
Proof.
  intros H. unfold spaced. rewrite lacks_cons, lacks_app, H. reflexivity.
Qed.

Lemma strip_spaced (cell : str) : strip (spaced cell) = strip cell.
Proof. apply (strip_pad [space] [space] cell); reflexivity. Qed.

(** Cells written between pipes and single spaces are read back as they
    were. *)
Lemma parse_row_framed (cells : list str) :
  Forall clean cells ->
  parse_row (join [pipe] ([] :: List.map spaced cells ++ [[]])) = cells.
Proof.
  intros Hc. unfold parse_row. cbv zeta. rewrite strip_framed.
  rewrite split_join.
  - rewrite slice_1_m1_framed, map_map.
    rewrite <- (map_id cells) at 2. apply map_ext_in. intros cell H.
    rewrite strip_spaced. rewrite Forall_forall in Hc. apply Hc, H.
  - discriminate.
  - simpl. rewrite forallb_app. simpl. rewrite andb_true_r.
    apply forallb_forall. intros x Hx.
    apply in_map_iff in Hx as [cell [<- Hcell]].
    rewrite Forall_forall in Hc. apply spaced_lacks_pipe, Hc, Hcell.
Qed.

Lemma normalize_table_row_parse (line : str) :
  parse_row (normalize_table_row line) = parse_row line.
Proof.
  destruct (is_table_row line) eqn:H.
  - rewrite normalize_table_row_cells by exact H.
    apply parse_row_framed, parse_row_clean.
  - unfold normalize_table_row. rewrite H. reflexivity.
Qed.

Lemma normalize_table_row_is_row (line : str) :
  is_table_row (normalize_table_row line) = is_table_row line.
Proof.
  destruct (is_table_row line) eqn:H.
  - rewrite normalize_table_row_cells by exact H. apply framed_is_table_row.
  - unfold normalize_table_row. rewrite H. exact H.
Qed.

Lemma normalize_table_row_again (line : str) :
  normalize_table_row (normalize_table_row line) = normalize_table_row line.
Proof.
  destruct (is_table_row line) eqn:H.
  - rewrite (normalize_table_row_cells (normalize_table_row line))
      by (rewrite normalize_table_row_is_row; exact H).
    rewrite normalize_table_row_parse.
    symmetry. apply normalize_table_row_cells, H.
  - unfold normalize_table_row at 2. rewrite H. simpl.
    unfold normalize_table_row. rewrite H. reflexivity.
Qed.

(** ** One row, aligned and normalised *)

Lemma join_cells_framed (cells : list str) :
  cells <> [] ->
  join_cells cells = join [pipe] ([] :: List.map spaced cells ++ [[]]).
Proof.
  intros Hne.
  change (join_cells cells)
    with (pipe :: space :: join (lit " | ") cells ++ [space; pipe]).
  rewrite join_cons
    by (intros E; apply (f_equal (@length str)) in E;
        rewrite length_app in E; simpl in E; lia).
  simpl app. f_equal.
  induction cells as [|c cells IH]; [congruence|].
  destruct cells as [|d cells].
  - simpl. rewrite <- app_assoc. reflexivity.
  - change (join (lit " | ") (c :: d :: cells))
      with (c ++ [space; pipe; space] ++ join (lit " | ") (d :: cells)).
    change (List.map spaced (c :: d :: cells) ++ [[]])
      with (spaced c :: (List.map spaced (d :: cells) ++ [[]])).
    rewrite (join_cons [pipe] (spaced c)) by (simpl; discriminate).
    rewrite <- IH by discriminate.
    unfold spaced. simpl. rewrite <- !app_assoc. reflexivity.
Qed.

Lemma render_row_own_widths (cells : list str) :
  forallb (fun cell => negb (is_sep_cell cell)) cells = true ->
  render_row_val (List.map (@length char) cells) cells = cells.
Proof.
  unfold render_row_val.
  induction cells as [|cell cells IH]; [reflexivity|]. intros H.
  simpl in H. apply andb_prop in H as [Hc H]. apply negb_true_iff in Hc.
  simpl. rewrite IH by exact H. f_equal.
  rewrite render_cell_regular by exact Hc. unfold ljust.
  rewrite Nat.sub_diag. apply app_nil_r.
Qed.

Lemma single_row_widths (cells : list str) :
  forallb (fun cell => negb (is_sep_cell cell)) cells = true ->
  col_widths_val [cells] = List.map (@length char) cells.
Proof.
  intros H. unfold col_widths_val, num_cols_val. simpl list_max.
  rewrite Nat.max_0_r. apply (nth_ext _ _ 0 0).
  - rewrite !length_map, length_seq. reflexivity.
  - intros col Hcol. rewrite length_map, length_seq in Hcol.
    rewrite (nth_indep _ 0 (width_val [cells] 0))
      by (rewrite length_map, length_seq; exact Hcol).
    rewrite map_nth, seq_nth by exact Hcol.
    change 0 with (length (@nil char)) at 2. rewrite map_nth.
    unfold width_val. simpl. rewrite Nat.max_0_r. unfold contribution.
    rewrite forallb_forall in H.
    specialize (H (nth col cells []) (nth_In _ _ Hcol)).
    apply negb_true_iff in H.
    match goal with
    | |- (if ?b then _ else _) = _ =>
        replace b with false by (symmetry; exact H)
    end.
    reflexivity.
Qed.

Lemma single_row_aligned (line : str) :
  parse_row line <> [] ->
  forallb (fun cell => negb (is_sep_cell cell)) (parse_row line) = true ->
  aligned_val [line] = [join_cells (parse_row line)].
Proof.
  intros Hne H. unfold aligned_val, cells_val, padded, parse_rows.
  cbn [List.map]. rewrite single_row_widths by exact H.
  unfold num_cols_val, pad_row. simpl list_max. rewrite Nat.max_0_r.
  rewrite Nat.sub_diag. simpl repeat. rewrite app_nil_r.
  rewrite render_row_own_widths by exact H. reflexivity.
Qed.

(** ** Separator rows *)

Lemma all_in_split (t : str) :
  all_in (lit "-|: ") t = forallb (all_in (lit "-: ")) (split pipe t).
Proof.
  induction t as [|c t IH]; [reflexivity|].
  change (all_in (lit "-|: ") (c :: t))
    with (existsb (N.eqb c) (lit "-|: ") && all_in (lit "-|: ") t).
  rewrite IH. simpl split. destruct (c =? pipe)%N eqn:E.
  - apply N.eqb_eq in E. subst c. reflexivity.
  - pose proof (split_nonempty pipe t) as Hne.
    destruct (split pipe t) as [|seg segs]; [congruence|].
    cbn [forallb].
    change (all_in (lit "-: ") (c :: seg))
      with (existsb (N.eqb c) (lit "-: ") && all_in (lit "-: ") seg).
    rewrite andb_assoc. f_equal. f_equal.
    change (lit "-|: ") with [dash; pipe; colon; space].
    change (lit "-: ") with [dash; colon; space].
    cbn [existsb]. rewrite E. reflexivity.
Qed.

(** A separator row is a table row whose raw cells hold nothing but
    dashes, colons and spaces. *)
Lemma is_separator_row_cells (line : str) :
  is_separator_row line
  = is_table_row line
    && forallb (all_in (lit "-: ")) (slice_1_m1 (split pipe (strip line))).
Proof.
  unfold is_separator_row. cbv zeta.
  destruct (is_table_row line) eqn:H; [|reflexivity]. simpl negb. cbv iota.
  destruct (table_row_shape line H) as [E|[t E]]; rewrite E.
  - reflexivity.
  - change (split pipe (pipe :: t ++ [pipe]))
      with ([] :: split pipe (t ++ [pipe])).
    rewrite split_snoc_sep, !slice_1_m1_framed. apply all_in_split.
Qed.

(** ** Whitespace around a line *)

Lemma is_table_row_strip (line : str) :
  is_table_row (strip line) = is_table_row line.
Proof. unfold is_table_row. rewrite strip_idem. reflexivity. Qed.

Lemma row_functions_padded (a b line : str) :
  forallb is_space a = true -> forallb is_space b = true ->
  is_table_row (a ++ line ++ b) = is_table_row line /\
  is_separator_row (a ++ line ++ b) = is_separator_row line /\
  parse_row (a ++ line ++ b) = parse_row line.
Proof.
  intros Ha Hb. pose proof (strip_pad a b line Ha Hb) as E.
  assert (Hrow : is_table_row (a ++ line ++ b) = is_table_row line)
    by (unfold is_table_row; rewrite E; reflexivity).
  split; [exact Hrow|]. split.
  - unfold is_separator_row. rewrite E, Hrow. reflexivity.
  - unfold parse_row. rewrite E. reflexivity.
Qed.

(** The aligned lines depend on the lines only through their cells. *)
Lemma align_table_by_cells (lines1 lines2 : list str) :
  parse_rows lines1 = parse_rows lines2 ->
  align_table lines1 = align_table lines2.
Proof.
  intros H. destruct lines1 as [|l1 t1], lines2 as [|l2 t2];
    try discriminate; [reflexivity|].
  rewrite !align_table_val, H. reflexivity.
Qed.

(** ** The length of an aligned line *)

Lemma join_length (sep : str) (parts : list str) :
  length (join sep parts)
  = list_sum (List.map (@length char) parts)
    + length sep * (length parts - 1).
Proof.
  induction parts as [|p parts IH]; [simpl; lia|].
  destruct parts as [|q parts].
  - simpl. lia.
  - change (join sep (p :: q :: parts)) with (p ++ sep ++ join sep (q :: parts)).
    rewrite !length_app, IH. cbn [List.map list_sum length].
    rewrite !Nat.sub_succ, !Nat.sub_0_r, Nat.mul_succ_r.
    unfold list_sum. cbn [fold_right]. lia.
Qed.

Lemma join_cells_length (cells : list str) :
  length (join_cells cells) = line_width (List.map (@length char) cells).
Proof.
  unfold join_cells. rewrite !length_app, join_length.
  change (length (lit "| ")) with 2. change (length (lit " |")) with 2.
  change (length (lit " | ")) with 3.
  destruct cells as [|c cells]; [reflexivity|].
  unfold line_width, list_sum.
  cbn [List.map length fold_right]. rewrite length_map.
  unfold str, char in *. lia.
Qed.

Lemma aligned_val_line_width (table_lines : list str) :
  Forall (fun out =>
            length out = line_width (col_widths_val (parse_rows table_lines)))
         (aligned_val table_lines).
Proof.
  unfold aligned_val. rewrite Forall_map.
  eapply Forall_impl; [|apply cells_val_widths].
  intros cells H. simpl in H. rewrite join_cells_length, H. reflexivity.
Qed.

(** ** Reading an aligned block back *)

Lemma Forall2_map_in {A B : Type} (R : A -> B -> Prop) (f : A -> B)
  (l : list A) :
  (forall a, In a l -> R a (f a)) -> Forall2 R l (List.map f l).
Proof.
  induction l as [|a l IH]; intros H; simpl; constructor.
  - apply H. left. reflexivity.
  - apply IH. intros b Hb. apply H. right. exact Hb.
Qed.

Lemma kept_strip_render_cell (cell : str) (w : nat) :
  clean cell -> kept cell (strip (render_cell cell w)).
Proof.
  intros Hc. unfold kept. destruct (is_sep_cell cell) eqn:E.
  - rewrite is_sep_strip_render_cell by exact Hc. exact E.
  - rewrite strip_render_cell, E by exact Hc. reflexivity.
Qed.

Lemma reread_row_kept (ws : list nat) (row : list str) :
  length row = length ws -> Forall clean row ->
  Forall2 kept row (reread_row ws row).
Proof.
  unfold reread_row, render_row_val. rewrite map_map.
  revert ws. induction row as [|cell row IH]; intros [|w ws] Hlen Hc;
    try discriminate; simpl; constructor.
  - apply kept_strip_render_cell. inversion Hc. assumption.
  - apply IH; [simpl in Hlen; lia|inversion Hc; assumption].
Qed.

Lemma aligned_val_kept (table_lines : list str) :
  1 <= num_cols_val (parse_rows table_lines) ->
  Forall2 (fun row out => Forall2 kept row (parse_row out))
          (padded (parse_rows table_lines)) (aligned_val table_lines).
Proof.
  intros Hn. unfold aligned_val, cells_val. rewrite map_map.
  pose proof (padded_clean table_lines) as Hclean.
  apply Forall2_map_in. intros prow H.
  pose proof (padded_row_length _ prow H) as Hlen.
  rewrite parse_row_join_cells.
  - apply reread_row_kept; [exact Hlen|].
    apply (padded_row_clean _ Hclean prow H).
  - intros E. apply (f_equal (@length str)) in E.
    rewrite render_row_val_length, col_widths_val_length in E by exact Hlen.
    simpl in E. lia.
  - apply (render_row_val_lacks_pipe _ Hclean prow H).
Qed.

Lemma has_cell_num_cols (table_lines : list str) (line : str) :
  In line table_lines -> parse_row line <> [] ->
  1 <= num_cols_val (parse_rows table_lines).
Proof.
  intros Hin Hne.
  pose proof (length_le_list_max (parse_rows table_lines) (parse_row line)
                (in_map parse_row _ _ Hin)) as Hle.
  assert (1 <= length (parse_row line))
    by (destruct (parse_row line); [congruence|simpl; lia]).
  unfold num_cols_val. lia.
Qed.

Lemma align_table_again (table_lines aligned : list str) (line : str) :
  align_table table_lines = Some aligned ->
  In line table_lines -> parse_row line <> [] ->
  align_table aligned = Some aligned.
Proof.
  intros Ha Hin Hne.
  destruct table_lines as [|l tl]; [destruct Hin|].
  rewrite align_table_aligned in Ha. injection Ha as <-.
  pose proof (aligned_val_length (l :: tl)) as Hlen.
  destruct (aligned_val (l :: tl)) as [|a rest] eqn:E; [discriminate|].
  rewrite align_table_aligned, <- E. f_equal.
  apply aligned_val_fixed; [discriminate|].
  apply (has_cell_num_cols _ line Hin Hne).
Qed.

(** ** Documents without tables, and the last line *)

Lemma join_split (sep : char) (s : str) : join [sep] (split sep s) = s.
Proof.
  induction s as [|c s IH]; [reflexivity|].
  simpl split. destruct (c =? sep)%N eqn:E.
  - apply N.eqb_eq in E. subst c.
    rewrite join_cons by apply split_nonempty. rewrite IH. reflexivity.
  - pose proof (split_nonempty sep s) as Hne.
    destruct (split sep s) as [|seg segs]; [congruence|].
    destruct segs as [|seg' segs]; simpl in *; rewrite <- IH; reflexivity.
Qed.

Lemma fix_loop_no_rows (lines : list str) :
  forallb (fun line => negb (is_table_row line)) lines = true ->
  forall result, fix_loop lines result = Some (result ++ lines).
Proof.
  induction lines as [|line lines IH]; intros H result.
  - simp fix_loop. rewrite app_nil_r. reflexivity.
  - simpl in H. apply andb_prop in H as [Hl H]. apply negb_true_iff in Hl.
    rewrite fix_loop_line, IH, <- app_assoc by assumption. reflexivity.
Qed.

Lemma filter_all {A : Type} (f : A -> bool) (l : list A) :
  forallb f l = true -> filter f l = l.
Proof.
  induction l as [|a l IH]; [reflexivity|]. simpl. intros H.
  apply andb_prop in H as [-> H]. rewrite IH by exact H. reflexivity.
Qed.

Lemma reflowed_rows_count (src out : list str) :
  reflowed src out ->
  length (filter is_table_row out) = length (filter is_table_row src).
Proof.
  induction 1 as [|line src out Hl _ IH
                  |line tl aligned before after src out Ht _ Ha Hr Hb Hf _ IH].
  - reflexivity.
  - simpl. rewrite Hl. exact IH.
  - rewrite !filter_app, !length_app, IH.
    rewrite (filter_all _ _ Ht), (filter_all _ _ Hr).
    apply reflowed_aligned in Ha. subst aligned.
    rewrite aligned_val_length.
    destruct Hb as [-> | ->], Hf as [-> | ->]; reflexivity.
Qed.

Lemma ends_block_snoc (rest : list str) (x : str) :
  ends_block rest = true -> is_table_row x = false ->
  ends_block (rest ++ [x]) = true.
Proof.
  intros Hr Hx. destruct rest as [|next rest]; [simpl; rewrite Hx|exact Hr].
  reflexivity.
Qed.

(** A last line that is not a table row stays the last line. *)
Lemma fix_loop_snoc (x : str) (lines : list str) :
  is_table_row x = false ->
  forall result, exists emitted,
    fix_loop (lines ++ [x]) result = Some (result ++ emitted ++ [x]) /\
    (lines <> [] -> emitted <> []).
Proof.
  intros Hx.
  induction lines as [|line rest Hl IH|line tl rest Ht Hr IH] using block_ind;
    intros result.
  - exists []. simpl app. rewrite fix_loop_line by exact Hx.
    simp fix_loop. split; [reflexivity|congruence].
  - destruct (IH (result ++ [line])) as [e [He _]]. exists (line :: e).
    simpl app. rewrite fix_loop_line, He, <- app_assoc by exact Hl.
    split; [reflexivity|discriminate].
  - rewrite <- app_assoc.
    rewrite fix_loop_block by (try apply ends_block_snoc; assumption).
    match goal with |- context [fix_loop (rest ++ [x]) (result ++ ?s)] =>
      destruct (IH (result ++ s)) as [e [He _]];
      exists (s ++ e) end.
    rewrite He, <- !app_assoc. split; [reflexivity|].
    pose proof (aligned_val_length (line :: tl)) as Hlen.
    destruct (aligned_val (line :: tl)); [discriminate|].
    destruct (blank_if (blank_needed_before result)); discriminate.
Qed.

(** ** Spacing of the output *)

Lemma pair_spaced_blank_l (x y : str) :
  is_blank x = true -> pair_spaced x y = true.
Proof.
  intros H. unfold pair_spaced. rewrite H, orb_true_r. reflexivity.
Qed.

Lemma pair_spaced_blank_r (x y : str) :
  is_blank y = true -> pair_spaced x y = true.
Proof. intros H. unfold pair_spaced. rewrite H. apply orb_true_r. Qed.

Lemma pair_spaced_same (x y : str) :
  is_table_row x = is_table_row y -> pair_spaced x y = true.
Proof.
  intros H. unfold pair_spaced. rewrite H, eqb_reflx. reflexivity.
Qed.

Lemma well_spaced_app (a b : list str) :
  well_spaced (a ++ b) = well_spaced a && joint a b && well_spaced b.
Proof.
  induction a as [|x a IH]; [reflexivity|].
  destruct a as [|z a].
  - simpl. destruct b; reflexivity.
  - change (well_spaced ((x :: z :: a) ++ b))
      with (pair_spaced x z && well_spaced ((z :: a) ++ b)).
    rewrite IH.
    change (well_spaced (x :: z :: a))
      with (pair_spaced x z && well_spaced (z :: a)).
    change (joint (x :: z :: a) b) with (joint (z :: a) b).
    rewrite !andb_assoc. reflexivity.
Qed.

Lemma well_spaced_rows (l : list str) :
  forallb is_table_row l = true -> well_spaced l = true.
Proof.
  induction l as [|x l IH]; [reflexivity|]. intros H.
  simpl in H. apply andb_prop in H as [Hx Hl].
  destruct l as [|y l]; [reflexivity|].
  change (well_spaced (x :: y :: l))
    with (pair_spaced x y && well_spaced (y :: l)).
  rewrite IH by exact Hl. simpl in Hl. apply andb_prop in Hl as [Hy _].
  rewrite pair_spaced_same by congruence. reflexivity.
Qed.

Lemma joint_nil_r (a : list str) : joint a [] = true.
Proof. destruct a; reflexivity. Qed.

Lemma joint_snoc (a : list str) (x : str) (b : list str) :
  joint (a ++ [x]) b
  = match b with [] => true | y :: _ => pair_spaced x y end.
Proof.
  unfold joint. rewrite last_last.
  destruct (a ++ [x]) eqn:E; [destruct a; discriminate|reflexivity].
Qed.

Lemma joint_app_l (a b c : list str) :
  b <> [] -> joint (a ++ b) c = joint b c.
Proof.
  intros Hne. destruct (exists_last Hne) as [b' [x ->]].
  rewrite app_assoc, !joint_snoc. reflexivity.
Qed.

Lemma joint_cons_r (a : list str) (y : str) (b : list str) :
  joint a (y :: b) = joint a [y].
Proof. destruct a; reflexivity. Qed.

Lemma is_blank_nil : is_blank [] = true.
Proof. reflexivity. Qed.

Lemma blank_needed_before_blank (result : list str) :
  blank_needed_before result = false ->
  result = [] \/ is_blank (last result []) = true.
Proof.
  unfold blank_needed_before, is_blank. destruct result; [auto|].
  intros H. right. apply negb_false_iff, H.
Qed.

Lemma blank_needed_after_blank (next : str) (rest : list str) :
  blank_needed_after (next :: rest) = false -> is_blank next = true.
Proof. unfold blank_needed_after, is_blank. apply negb_false_iff. Qed.

(** What the loop appends for a block is well spaced, and fits what
    precedes and what follows it. *)
Lemma block_output_spaced (result rest aligned : list str) :
  aligned <> [] -> forallb is_table_row aligned = true ->
  ends_block rest = true ->
  well_spaced result = true ->
  let appended :=
    blank_if (blank_needed_before result) ++ aligned
      ++ blank_if (blank_needed_after rest) in
  well_spaced (result ++ appended) = true /\
  joint (result ++ appended) (text_head rest) = true.
Proof.
  intros Hne Hrows Hends Hres appended.
  destruct aligned as [|a al]; [congruence|].
  assert (Hlast : exists al' z, a :: al = al' ++ [z])
    by (destruct (exists_last Hne) as [al' [z E]]; eauto).
  destruct Hlast as [al' [z Hz]].
  assert (Happ : appended <> [])
    by (unfold appended; destruct (blank_if _); discriminate).
  split.
  - rewrite well_spaced_app, Hres. simpl andb. apply andb_true_intro. split.
    + unfold appended.
      destruct (blank_needed_before result) eqn:Eb; simpl blank_if.
      * simpl app. rewrite joint_cons_r. destruct result; [reflexivity|].
        apply pair_spaced_blank_r, is_blank_nil.
      * apply blank_needed_before_blank in Eb as [-> | Eb]; [reflexivity|].
        simpl app. rewrite joint_cons_r. destruct result; [reflexivity|].
        apply pair_spaced_blank_l, Eb.
    + unfold appended. rewrite !well_spaced_app.
      rewrite (well_spaced_rows _ Hrows).
      assert (Hb : forall b, well_spaced (blank_if b) = true)
        by (intros []; reflexivity).
      rewrite !Hb, !andb_true_r. apply andb_true_intro. split.
      * destruct (blank_needed_before result); [|reflexivity].
        simpl. apply pair_spaced_blank_l, is_blank_nil.
      * destruct (blank_needed_after rest); [|apply joint_nil_r].
        simpl blank_if. rewrite Hz, joint_snoc.
        apply pair_spaced_blank_r, is_blank_nil.
  - rewrite joint_app_l by exact Happ. unfold appended.
    destruct rest as [|next rest]; [apply joint_nil_r|].
    simpl in Hends. apply negb_true_iff in Hends.
    unfold text_head. rewrite Hends.
    destruct (blank_needed_after (next :: rest)) eqn:Ea; simpl blank_if.
    + rewrite !app_assoc, joint_snoc. apply pair_spaced_blank_l, is_blank_nil.
    + apply blank_needed_after_blank in Ea. rewrite app_nil_r.
      rewrite joint_app_l by exact Hne. rewrite Hz, joint_snoc.
      apply pair_spaced_blank_r, Ea.
Qed.

(** The loop keeps its output well spaced. *)
Lemma fix_loop_spaced (lines : list str) :
  forall result,
    well_spaced result = true ->
    joint result (text_head lines) = true ->
    exists emitted,
      fix_loop lines result = Some (result ++ emitted) /\
      well_spaced (result ++ emitted) = true.
Proof.
  induction lines as [|line rest Hl IH|line tl rest Ht Hr IH] using block_ind;
    intros result Hres Hj.
  - exists []. simp fix_loop. rewrite app_nil_r. auto.
  - unfold text_head in Hj. rewrite Hl in Hj.
    destruct (IH (result ++ [line])) as [e [He Hs]].
    + rewrite well_spaced_app, Hres, Hj. reflexivity.
    + rewrite joint_snoc. unfold text_head.
      destruct rest as [|next rest]; [reflexivity|].
      destruct (is_table_row next) eqn:En; [reflexivity|].
      apply pair_spaced_same. congruence.
    + exists (line :: e). rewrite fix_loop_line by exact Hl.
      rewrite <- app_assoc in He, Hs. auto.
  - rewrite fix_loop_block by assumption.
    destruct (block_output_spaced result rest (aligned_val (line :: tl)))
      as [Hs Hj']; try assumption.
    { intros E. apply (f_equal (@length str)) in E.
      rewrite aligned_val_length in E. discriminate. }
    { apply aligned_val_rows. }
    cbv zeta in Hs, Hj'.
    match goal with |- context [fix_loop rest (result ++ ?s)] =>
      destruct (IH (result ++ s) Hs Hj') as [e [He Hse]];
      exists (s ++ e) end.
    rewrite He. rewrite <- !app_assoc in *. auto.
Qed.

(** ** Documents that are already well spaced *)

Lemma blank_not_row (line : str) :
  is_blank line = true -> is_table_row line = false.
Proof.
  unfold is_blank, is_table_row. cbv zeta.
  destruct (strip line); [reflexivity|discriminate].
Qed.

Lemma pair_spaced_text_row (x y : str) :
  pair_spaced x y = true ->
  is_table_row x = false -> is_table_row y = true -> is_blank x = true.
Proof.
  unfold pair_spaced. intros H Hx Hy. rewrite Hx, Hy in H. simpl in H.
  destruct (is_blank x); [reflexivity|]. simpl in H.
  apply blank_not_row in H. congruence.
Qed.

Lemma pair_spaced_row_text (x y : str) :
  pair_spaced x y = true ->
  is_table_row x = true -> is_table_row y = false -> is_blank y = true.
Proof.
  unfold pair_spaced. intros H Hx Hy. rewrite Hx, Hy in H. simpl in H.
  destruct (is_blank x) eqn:E; [|exact H].
  apply blank_not_row in E. congruence.
Qed.

Lemma last_row (line : str) (table_lines : list str) :
  forallb is_table_row (line :: table_lines) = true ->
  is_table_row (last (line :: table_lines) []) = true.
Proof.
  intros H. rewrite forallb_forall in H. apply H.
  destruct (exists_last (l := line :: table_lines)) as [l' [z E]];
    [discriminate|].
  rewrite E, last_last. apply in_or_app. right. left. reflexivity.
Qed.

(** On a well spaced document the loop appends one line for each line
    it reads. *)
Lemma fix_loop_well_spaced_input (lines : list str) :
  well_spaced lines = true ->
  forall result,
    (ends_block lines = false -> blank_needed_before result = false) ->
    exists emitted,
      fix_loop lines result = Some (result ++ emitted) /\
      length emitted = length lines.
Proof.
  induction lines as [|line rest Hl IH|line tl rest Ht Hr IH] using block_ind;
    intros Hws result Hb.
  - exists []. simp fix_loop. rewrite app_nil_r. auto.
  - assert (Hrest : well_spaced rest = true).
    { destruct rest as [|next rest]; [reflexivity|].
      change (well_spaced (line :: next :: rest))
        with (pair_spaced line next && well_spaced (next :: rest)) in Hws.
      apply andb_prop in Hws as [_ H]. exact H. }
    destruct (IH Hrest (result ++ [line])) as [e [He Hlen]].
    { intros Hends. rewrite blank_needed_before_snoc.
      destruct rest as [|next rest]; [discriminate|].
      simpl in Hends. apply negb_false_iff in Hends.
      change (well_spaced (line :: next :: rest))
        with (pair_spaced line next && well_spaced (next :: rest)) in Hws.
      apply andb_prop in Hws as [Hp _].
      pose proof (pair_spaced_text_row _ _ Hp Hl Hends) as Hblank.
      unfold is_blank in Hblank. rewrite Hblank. reflexivity. }
    exists (line :: e). rewrite fix_loop_line, He, <- app_assoc by exact Hl.
    split; [reflexivity|]. simpl. rewrite Hlen. reflexivity.
  - rewrite well_spaced_app in Hws. apply andb_prop in Hws as [Hws Hrest].
    apply andb_prop in Hws as [_ Hj].
    assert (Hbefore : blank_needed_before result = false).
    { apply Hb. simpl. simpl in Ht. apply andb_prop in Ht as [-> _].
      reflexivity. }
    assert (Hafter : blank_needed_after rest = false).
    { destruct rest as [|next rest]; [reflexivity|].
      simpl in Hr. apply negb_true_iff in Hr. unfold joint in Hj.
      pose proof (pair_spaced_row_text _ _ Hj (last_row _ _ Ht) Hr) as Hblank.
      unfold blank_needed_after. unfold is_blank in Hblank.
      rewrite Hblank. reflexivity. }
    rewrite fix_loop_block by assumption.
    rewrite Hbefore, Hafter. simpl blank_if. rewrite app_nil_r. simpl app.
    destruct (IH Hrest (result ++ aligned_val (line :: tl))) as [e [He Hlen]].
    { intros Hends. rewrite Hr in Hends. discriminate. }
    exists (aligned_val (line :: tl) ++ e).
    rewrite He, <- app_assoc. split; [reflexivity|].
    rewrite length_app, aligned_val_length, Hlen.
    cbn [length]. rewrite length_app. lia.
Qed.

(** ** Composing the loop *)

Lemma last_cons_cons {A : Type} (a b : A) (l : list A) (d : A) :
  last (a :: b :: l) d = last (b :: l) d.
Proof. reflexivity. Qed.

Lemma last_app_nonempty {A : Type} (a b : list A) (d : A) :
  b <> [] -> last (a ++ b) d = last b d.
Proof.
  intros Hne. destruct (exists_last Hne) as [b' [x ->]].
  rewrite app_assoc, !last_last. reflexivity.
Qed.

Lemma ends_block_app (rest more : list str) :
  rest <> [] -> ends_block (rest ++ more) = ends_block rest.
Proof. destruct rest; [congruence|reflexivity]. Qed.

Lemma blank_needed_after_app (rest more : list str) :
  rest <> [] -> blank_needed_after (rest ++ more) = blank_needed_after rest.
Proof. destruct rest; [congruence|reflexivity]. Qed.

(** Running the loop over [pre ++ more] is running it over [pre] and
    then over [more], when [pre] does not end with a table row. *)
Lemma fix_loop_app (pre : list str) :
  ends_text pre = true ->
  forall more result,
    fix_loop (pre ++ more) result
    = result' <- fix_loop pre result ;; fix_loop more result'.
Proof.
  induction pre as [|line rest Hl IH|line tl rest Ht Hr IH] using block_ind;
    intros He more result.
  - simp fix_loop. reflexivity.
  - simpl app. rewrite !fix_loop_line by exact Hl. apply IH.
    destruct rest as [|next rest]; [reflexivity|exact He].
  - assert (Hne : rest <> []).
    { intros ->. rewrite app_nil_r in He. unfold ends_text in He.
      rewrite last_row in He by exact Ht. discriminate. }
    assert (He' : ends_text rest = true).
    { unfold ends_text in He. simpl app in He.
      change (line :: tl ++ rest) with ((line :: tl) ++ rest) in He.
      rewrite last_app_nonempty in He by exact Hne.
      unfold ends_text. destruct rest; [congruence|exact He]. }
    rewrite <- app_assoc.
    rewrite !fix_loop_block
      by (try rewrite ends_block_app by exact Hne; assumption).
    rewrite blank_needed_after_app by exact Hne. apply IH, He'.
Qed.

(** A first line that is not a table row is the first line appended. *)
Lemma fix_loop_head (lines : list str) (result out : list str) :
  ends_block lines = true ->
  fix_loop lines result = Some (result ++ out) ->
  hd_error out = hd_error lines.
Proof.
  intros He H. destruct lines as [|next rest].
  - simp fix_loop in H. injection H as H.
    rewrite <- (app_nil_r result) in H at 1.
    apply app_inv_head in H. subst out. reflexivity.
  - simpl in He. apply negb_true_iff in He.
    rewrite fix_loop_line in H by exact He.
    destruct (fix_loop_total rest (result ++ [next])) as [e Hre].
    rewrite Hre, <- app_assoc in H. injection H as H.
    apply app_inv_head in H. subst out. reflexivity.
Qed.

(** The lines copied before a block end with the line that precedes
    it. *)
Lemma fix_loop_last (pre out_pre : list str) :
  ends_text pre = true ->
  fix_loop pre [] = Some out_pre ->
  pre = [] /\ out_pre = [] \/
  exists pre' prev prefix,
    pre = pre' ++ [prev] /\ out_pre = prefix ++ [prev].
Proof.
  intros He H. destruct pre as [|p pre].
  - left. simp fix_loop in H. injection H as <-. auto.
  - right. destruct (exists_last (l := p :: pre)) as [pre' [prev E]];
      [discriminate|].
    rewrite E in *. unfold ends_text in He.
    destruct (pre' ++ [prev]) eqn:E'; [destruct pre'; discriminate|].
    rewrite <- E', last_last in He. apply negb_true_iff in He.
    rewrite <- E' in H.
    destruct (fix_loop_snoc prev pre' He []) as [e [He' _]].
    rewrite He' in H. injection H as <-.
    exists pre', prev, e. auto.
Qed.

(** ** The raw cells of an aligned line *)

Lemma split_join_cells (cells : list str) :
  cells <> [] -> forallb (lacks pipe) cells = true ->
  split pipe (join_cells cells) = [] :: List.map spaced cells ++ [[]].
Proof.
  intros Hne Hp.
  change (join_cells cells)
    with (pipe :: space :: join (lit " | ") cells ++ [space; pipe]).
  change (split pipe (pipe :: ?x)) with ([] :: split pipe x).
  rewrite split_joined_cells by assumption. reflexivity.
Qed.

Lemma spaced_length (cell : str) : length (spaced cell) = length cell + 2.
Proof. unfold spaced. simpl. rewrite length_app. simpl. lia. Qed.

Lemma aligned_val_raw_cells (table_lines : list str) :
  1 <= num_cols_val (parse_rows table_lines) ->
  Forall (fun out =>
            strip out = out /\
            List.map (@length char) (slice_1_m1 (split pipe out))
            = List.map (fun w => w + 2)
                       (col_widths_val (parse_rows table_lines)) /\
            length (parse_row out)
            = length (col_widths_val (parse_rows table_lines)))
         (aligned_val table_lines).
Proof.
  intros Hn. unfold aligned_val, cells_val. rewrite !Forall_map.
  pose proof (padded_clean table_lines) as Hclean.
  pose proof (cells_val_widths (parse_rows table_lines)) as Hw.
  unfold cells_val in Hw. rewrite Forall_map in Hw.
  rewrite Forall_forall in Hw. apply Forall_forall.
  intros prow H. specialize (Hw prow H).
  pose proof (padded_row_length _ prow H) as Hlen.
  assert (Hne : render_row_val (col_widths_val (parse_rows table_lines)) prow
                <> []).
  { intros E. apply (f_equal (@length str)) in E.
    rewrite render_row_val_length, col_widths_val_length in E by exact Hlen.
    simpl in E. lia. }
  assert (Hp := render_row_val_lacks_pipe _ Hclean prow H).
  split; [apply strip_join_cells|]. split.
  - rewrite split_join_cells, slice_1_m1_framed, map_map by assumption.
    etransitivity; [|apply (f_equal (List.map (fun w => w + 2)) Hw)].
    rewrite map_map. apply map_ext. apply spaced_length.
  - rewrite parse_row_join_cells, length_map by assumption.
    apply render_row_val_length, Hlen.
Qed.

(** * Properties stated by the specification *)

(** ** Row recognition *)

(** C10.  A line is a table row exactly when, once leading and trailing
    whitespace is trimmed, it starts with the pipe character and ends
    with the pipe character. *)
Theorem is_table_row_iff (line : str) :
  is_table_row line = true <->
  (exists t, strip line = pipe :: t) /\ (exists t, strip line = t ++ [pipe]).
Proof.
  unfold is_table_row. cbv zeta. change (lit "|") with [pipe].
  rewrite andb_true_iff, startswith_single, endswith_single. reflexivity.
Qed.

(** ** Column widths and rendering *)

(** C2.  On the block made of one lone pipe the rows have no cell, and
    the line [align_table] returns for it, [|  |], reads as a row of one
    cell: a produced line does not always have as many cells as the
    longest row of the block. *)
Theorem lone_pipe_block_line :
  parse_rows [lit "|"] = [[]] /\
  list_max (List.map (@length str) (parse_rows [lit "|"])) = 0 /\
  align_table [lit "|"] = Some [lit "|  |"] /\
  parse_row (lit "|  |") = [[]] /\
  List.map (fun out => length (parse_row out)) [lit "|  |"] = [1].
Proof. repeat split. Qed.

(** The lists of cells that [align_table] joins into lines: on a
    non-empty block each has as many cells as the longest parsed row,
    and the widths of its cells are the column widths of the block. *)
Theorem aligned_rows_uniform (line : str) (lines : list str) :
  exists b,
    align_trace (line :: lines) = Some b /\
    align_table (line :: lines) = Some (List.map join_cells (block_cells b)) /\
    block_rows b
    = List.map (pad_row (length (block_widths b))) (parse_rows (line :: lines)) /\
    length (block_cells b) = length (line :: lines) /\
    length (block_widths b)
    = list_max (List.map (@length str) (parse_rows (line :: lines))) /\
    Forall (fun cells => length cells = length (block_widths b)) (block_cells b) /\
    Forall (fun cells => List.map (@length char) cells = block_widths b)
           (block_cells b).
Proof.
  eexists. split; [apply align_trace_val|]. simpl block_cells. simpl block_widths.
  split; [apply align_table_val|].
  pose proof (cells_val_widths (parse_rows (line :: lines))) as Hw.
  split; [rewrite col_widths_val_length; reflexivity|].
  split; [|split; [|split]].
  - unfold cells_val, padded, parse_rows. rewrite !length_map.
    simpl. rewrite ?length_map. reflexivity.
  - apply col_widths_val_length.
  - eapply Forall_impl; [|exact Hw]. simpl. intros cells <-.
    rewrite length_map. reflexivity.
  - exact Hw.
Qed.

(** C4.  The width of a column is the maximum, over the rows of the
    block, of what each cell contributes: 3 for a cell made only of
    dashes and colons (the empty cell included), its length otherwise.
    The rows are the parsed rows of the input, padded; the cells
    [align_table] joins into its lines have exactly these widths, and
    the length of every line it returns is fixed by them. *)
Theorem column_width_is_max_contribution (line : str) (lines : list str) :
  exists b,
    align_trace (line :: lines) = Some b /\
    align_table (line :: lines) = Some (List.map join_cells (block_cells b)) /\
    block_rows b
    = List.map (pad_row (length (block_widths b))) (parse_rows (line :: lines)) /\
    block_widths b
    = List.map (fun col =>
                  list_max (List.map (fun row => contribution (nth col row []))
                                     (block_rows b)))
               (seq 0 (list_max (List.map (@length str)
                                          (parse_rows (line :: lines))))) /\
    Forall (fun cells => List.map (@length char) cells = block_widths b)
           (block_cells b) /\
    Forall (fun out => length out = line_width (block_widths b))
           (List.map join_cells (block_cells b)) /\
    (forall cell,
        contribution cell
        = if forallb (fun c => (c =? dash)%N || (c =? colon)%N) cell
          then 3 else length cell) /\
    contribution [] = 3.
Proof.
  eexists. split; [apply align_trace_val|].
  simpl block_widths. simpl block_rows. simpl block_cells.
  split; [apply align_table_val|].
  split; [rewrite col_widths_val_length; reflexivity|].
  split; [|split; [|split; [|split; [|reflexivity]]]].
  - unfold col_widths_val, num_cols_val. apply map_ext. intros col.
    unfold width_val, padded. rewrite map_map. f_equal. apply map_ext.
    intros row. rewrite pad_row_nth. reflexivity.
  - apply cells_val_widths.
  - apply (aligned_val_line_width (line :: lines)).
  - intros cell. unfold contribution. rewrite is_sep_cell_forallb.
    reflexivity.
Qed.

(** C9.  A column that holds a separator-style cell is at least 3 wide,
    so no repeat count of the dash in [render_cell] is negative. *)
Theorem separator_column_width (table_lines : list str) (b : block)
  (r c : nat) (row : list str) (cell : str) :
  align_trace table_lines = Some b ->
  nth_error (block_rows b) r = Some row ->
  nth_error row c = Some cell ->
  is_sep_cell cell = true ->
  align_table table_lines = Some (List.map join_cells (block_cells b)) /\
  exists w,
    nth_error (block_widths b) c = Some w /\
    3 <= w /\ (0 <= Z.of_nat w - 2)%Z /\ (0 <= Z.of_nat w - 1)%Z.
Proof.
  intros Hb Hrow Hcell Hsep. split; [apply align_table_of_trace, Hb|].
  apply align_trace_inv in Hb. subst b.
  simpl in *.
  destruct (trace_cell _ _ _ _ _ Hrow Hcell) as [Hle [Hw _]].
  exists (width_val (parse_rows table_lines) c).
  unfold contribution in Hle. rewrite Hsep in Hle.
  split; [exact Hw|]. lia.
Qed.

Lemma separator_column_width_witness :
  align_table [lit "|abcdef|"; lit "|---:|"]
  = Some (List.map join_cells [[lit "abcdef"]; [lit "-----:"]]) /\
  exists w,
    nth_error [6] 0 = Some w /\
    3 <= w /\ (0 <= Z.of_nat w - 2)%Z /\ (0 <= Z.of_nat w - 1)%Z.
Proof.
  apply (separator_column_width
           [lit "|abcdef|"; lit "|---:|"]
           (Block [[lit "abcdef"]; [lit "---:"]] [6]
                  [[lit "abcdef"]; [lit "-----:"]])
           1 0 [lit "---:"] (lit "---:"));
    reflexivity.
Defined.

(** C3.  A separator-style cell is rendered, at the width [w] of its
    column, as a colon, [w-2] dashes and a colon when it starts and ends
    with a colon; a colon and [w-1] dashes when it only starts with one;
    [w-1] dashes and a colon when it only ends with one; [w] dashes
    otherwise.  The marker [---:] under a 6-character cell becomes
    [-----:]. *)
Theorem separator_cell_rendering :
  (forall (table_lines : list str) (b : block) (r c : nat)
          (row : list str) (cell : str) (w : nat),
      align_trace table_lines = Some b ->
      nth_error (block_rows b) r = Some row ->
      nth_error row c = Some cell ->
      nth_error (block_widths b) c = Some w ->
      is_sep_cell cell = true ->
      align_table table_lines = Some (List.map join_cells (block_cells b)) /\
      exists cells out,
        nth_error (block_cells b) r = Some cells /\
        nth_error cells c = Some out /\
        out = separator_rendering (leading_colon cell) (trailing_colon cell) w /\
        startswith cell (lit ":") = leading_colon cell /\
        endswith cell (lit ":") = trailing_colon cell) /\
  render_cell (lit "---:") 6 = lit "-----:" /\
  align_table [lit "|abcdef|"; lit "|---:|"]
  = Some [lit "| abcdef |"; lit "| -----: |"].
Proof.
  split; [|split; reflexivity].
  intros table_lines b r c row cell w Hb Hrow Hcell Hw Hsep.
  split; [apply align_table_of_trace, Hb|].
  apply align_trace_inv in Hb. subst b. simpl in *.
  destruct (trace_cell _ _ _ _ _ Hrow Hcell) as [_ [Hw' [Hcells Hout]]].
  rewrite Hw' in Hw. injection Hw as <-.
  eexists. eexists. split; [exact Hcells|]. split; [exact Hout|].
  split; [apply render_cell_sep, Hsep|].
  split; [apply startswith_colon|apply endswith_colon].
Qed.

Lemma separator_cell_rendering_witness :
  align_table [lit "|ab|abcdef|"; lit "| :- |:|"]
  = Some (List.map join_cells
                   [[lit "ab "; lit "abcdef"]; [lit ":--"; lit ":----:"]]) /\
  exists cells out,
    nth_error [[lit "ab "; lit "abcdef"]; [lit ":--"; lit ":----:"]] 1
    = Some cells /\
    nth_error cells 0 = Some out /\
    out = separator_rendering true false 3 /\
    startswith (lit ":-") (lit ":") = true /\
    endswith (lit ":-") (lit ":") = false.
Proof.
  apply (proj1 separator_cell_rendering
           [lit "|ab|abcdef|"; lit "| :- |:|"]
           (Block [[lit "ab"; lit "abcdef"]; [lit ":-"; lit ":"]] [3; 6]
                  [[lit "ab "; lit "abcdef"]; [lit ":--"; lit ":----:"]])
           1 0 [lit ":-"; lit ":"] (lit ":-") 3);
    reflexivity.
Defined.

(** C6.  A separator-style cell of the input starts with a colon exactly
    when its rendering does, and ends with a colon exactly when its
    rendering does. *)
Theorem alignment_markers_preserved (table_lines : list str) (b : block)
  (r c : nat) (row : list str) (cell : str) :
  align_trace table_lines = Some b ->
  nth_error (block_rows b) r = Some row ->
  nth_error row c = Some cell ->
  is_sep_cell cell = true ->
  align_table table_lines = Some (List.map join_cells (block_cells b)) /\
  exists cells out,
    nth_error (block_cells b) r = Some cells /\
    nth_error cells c = Some out /\
    startswith out (lit ":") = startswith cell (lit ":") /\
    endswith out (lit ":") = endswith cell (lit ":").
Proof.
  intros Hb Hrow Hcell Hsep. split; [apply align_table_of_trace, Hb|].
  apply align_trace_inv in Hb. subst b. simpl in *.
  destruct (trace_cell _ _ _ _ _ Hrow Hcell) as [Hle [_ [Hcells Hout]]].
  unfold contribution in Hle. rewrite Hsep in Hle.
  eexists. eexists. split; [exact Hcells|]. split; [exact Hout|].
  rewrite render_cell_sep, !startswith_colon, !endswith_colon by exact Hsep.
  split.
  - apply separator_rendering_leading, Hle.
  - apply separator_rendering_trailing, Hle.
Qed.

Lemma alignment_markers_preserved_witness :
  align_table [lit "|abcdef|"; lit "|---:|"]
  = Some (List.map join_cells [[lit "abcdef"]; [lit "-----:"]]) /\
  exists cells out,
    nth_error [[lit "abcdef"]; [lit "-----:"]] 1 = Some cells /\
    nth_error cells 0 = Some out /\
    startswith out (lit ":") = startswith (lit "---:") (lit ":") /\
    endswith out (lit ":") = endswith (lit "---:") (lit ":").
Proof.
  apply (alignment_markers_preserved
           [lit "|abcdef|"; lit "|---:|"]
           (Block [[lit "abcdef"]; [lit "---:"]] [6]
                  [[lit "abcdef"]; [lit "-----:"]])
           1 0 [lit "---:"] (lit "---:"));
    reflexivity.
Defined.

(** The example of the specification. *)
Example name_age_table :
  fix_tables_in_content (lit "|Name|Age|
|---|---|
|Al|5|
|Bob|100|")
  = Some (lit "| Name | Age |
| ---- | --- |
| Al   | 5   |
| Bob  | 100 |").
Proof. reflexivity. Qed.

(** ** Blank lines around a block *)

(** C5.  Take a document and a block in it: a run of table rows that
    no table row precedes or follows.  The lines of the output are the
    lines produced for what precedes the block, then at most one empty
    line, the aligned block, at most one empty line, and the lines
    produced for what follows.  The empty line before the block is there
    exactly when a line precedes the block in the output and is not
    blank; the one after it exactly when a line follows the block in the
    source and is not blank.  The line before is the source line before
    the block, and the line after the source line after it. *)
Theorem blank_line_enforcement (content : str) (pre : list str)
  (line : str) (table_lines rest : list str) :
  split newline content = pre ++ (line :: table_lines) ++ rest ->
  ends_text pre = true ->
  forallb is_table_row (line :: table_lines) = true ->
  ends_block rest = true ->
  exists out out_pre aligned before after out_rest,
    fix_tables_in_content content = Some out /\
    split newline out = out_pre ++ before ++ aligned ++ after ++ out_rest /\
    fix_loop pre [] = Some out_pre /\
    align_table (line :: table_lines) = Some aligned /\
    fix_loop rest (out_pre ++ before ++ aligned ++ after)
    = Some ((out_pre ++ before ++ aligned ++ after) ++ out_rest) /\
    (before = [[]] /\
     (exists prefix prev, out_pre = prefix ++ [prev] /\ strip prev <> [])
     \/
     before = [] /\
     (out_pre = [] \/
      exists prefix prev, out_pre = prefix ++ [prev] /\ strip prev = [])) /\
    (after = [[]] /\
     (exists next tail, rest = next :: tail /\ strip next <> [])
     \/
     after = [] /\
     (rest = [] \/
      exists next tail, rest = next :: tail /\ strip next = [])) /\
    (pre = [] /\ out_pre = [] \/
     exists pre' prev prefix,
       pre = pre' ++ [prev] /\ out_pre = prefix ++ [prev]) /\
    hd_error out_rest = hd_error rest.
Proof.
  intros Hsplit Hpre Hrows Hends.
  destruct (fix_loop_total pre []) as [out_pre Hp]. simpl in Hp.
  set (aligned := aligned_val (line :: table_lines)).
  set (before := blank_if (blank_needed_before out_pre)).
  set (after := blank_if (blank_needed_after rest)).
  destruct (fix_loop_total rest (out_pre ++ before ++ aligned ++ after))
    as [out_rest Hr].
  assert (Hall : fix_loop (split newline content) []
                 = Some (out_pre ++ before ++ aligned ++ after ++ out_rest)).
  { rewrite Hsplit, fix_loop_app, Hp by exact Hpre. cbn [bind].
    rewrite fix_loop_block by assumption. fold aligned before after.
    rewrite Hr, <- !app_assoc. reflexivity. }
  exists (join [newline]
               (out_pre ++ before ++ aligned ++ after ++ out_rest)),
         out_pre, aligned, before, after, out_rest.
  split; [unfold fix_tables_in_content; rewrite Hall; reflexivity|].
  split; [apply (split_output content), Hall|].
  split; [exact Hp|].
  split; [apply align_table_aligned|].
  split; [exact Hr|].
  split; [|split; [|split]].
  - unfold before. destruct (blank_needed_before out_pre) eqn:E.
    + left. split; [reflexivity|]. apply blank_needed_before_true, E.
    + right. split; [reflexivity|]. apply blank_needed_before_false, E.
  - unfold after. destruct (blank_needed_after rest) eqn:E.
    + left. split; [reflexivity|]. apply blank_needed_after_true, E.
    + right. split; [reflexivity|]. apply blank_needed_after_false, E.
  - apply fix_loop_last; assumption.
  - apply (fix_loop_head rest _ out_rest Hends Hr).
Qed.

Lemma blank_line_enforcement_witness :
  exists out out_pre aligned before after out_rest,
    fix_tables_in_content (lit "before
|a|b|
  
after") = Some out /\
    split newline out = out_pre ++ before ++ aligned ++ after ++ out_rest /\
    fix_loop [lit "before"] [] = Some out_pre /\
    align_table (lit "|a|b|" :: []) = Some aligned /\
    fix_loop [lit "  "; lit "after"] (out_pre ++ before ++ aligned ++ after)
    = Some ((out_pre ++ before ++ aligned ++ after) ++ out_rest) /\
    (before = [[]] /\
     (exists prefix prev, out_pre = prefix ++ [prev] /\ strip prev <> [])
     \/
     before = [] /\
     (out_pre = [] \/
      exists prefix prev, out_pre = prefix ++ [prev] /\ strip prev = [])) /\
    (after = [[]] /\
     (exists next tail,
         [lit "  "; lit "after"] = next :: tail /\ strip next <> [])
     \/
     after = [] /\
     ([lit "  "; lit "after"] = [] \/
      exists next tail,
        [lit "  "; lit "after"] = next :: tail /\ strip next = [])) /\
    ([lit "before"] = [] /\ out_pre = [] \/
     exists pre' prev prefix,
       [lit "before"] = pre' ++ [prev] /\ out_pre = prefix ++ [prev]) /\
    hd_error out_rest = hd_error [lit "  "; lit "after"].
Proof.
  apply (blank_line_enforcement (lit "before
|a|b|
  
after") [lit "before"] (lit "|a|b|") [] [lit "  "; lit "after"]);
    reflexivity.
Defined.

(** Two tables one blank line apart, each next to prose: the blank line
    between them is kept single and one is added next to the prose. *)
Example two_tables_spacing :
  fix_tables_in_content (lit "intro
|a|b|

|c|
outro")
  = Some (lit "intro

| a | b |

| c |

outro").
Proof. reflexivity. Qed.

(** ** Lines that are not table rows *)

(** C7.  The output lines are the input lines reflowed: every line that
    is not a table row is kept as it is and where it is, every block is
    replaced by its aligned lines, and the only other lines are empty
    ones next to a block.  In particular the non-empty lines that are
    not table rows are the same, in the same order, before and after. *)
Theorem non_table_lines_preserved (content : str) :
  exists out,
    fix_loop (split newline content) [] = Some out /\
    fix_tables_in_content content = Some (join [newline] out) /\
    reflowed (split newline content) out /\
    filter is_text_line out = filter is_text_line (split newline content).
Proof.
  destruct (fix_loop_reflowed (split newline content) []) as [out [Hout Hre]].
  simpl in Hout. exists out. split; [exact Hout|].
  split; [unfold fix_tables_in_content; rewrite Hout; reflexivity|].
  split; [exact Hre|apply reflowed_text_lines, Hre].
Qed.

(** ** Totality *)

(** C8.  [fix_tables_in_content] returns a result on every input, and so
    does [align_table] on every list of lines: no [max] of an empty
    sequence, no index out of range, and the loops end.  Degenerate rows
    are reformatted, not rejected. *)
Theorem fix_tables_in_content_total :
  (forall content, exists out, fix_tables_in_content content = Some out) /\
  (forall table_lines, exists aligned,
      align_table table_lines = Some aligned /\
      length aligned = length table_lines) /\
  fix_tables_in_content (lit "||") = Some (lit "| --- |") /\
  fix_tables_in_content (lit "|") = Some (lit "|  |") /\
  fix_tables_in_content (lit "|a|b|c|
|-|
||x") = Some (lit "| a   | b   | c   |
| --- | --- | --- |

||x").
Proof.
  split; [|split; [|split; [|split]]]; try reflexivity.
  - intros content. unfold fix_tables_in_content.
    destruct (fix_loop_total (split newline content) []) as [e ->].
    eexists. reflexivity.
  - intros [|line lines].
    + exists []. split; reflexivity.
    + eexists. split; [apply align_table_val|].
      unfold cells_val, padded, parse_rows. rewrite !length_map. reflexivity.
Qed.

(** ** Idempotence *)

(** C1.  The transform is not idempotent on a line that is a lone pipe:
    the row has no cell and is written as [|  |], which the next pass
    reads as a row of one empty cell and rewrites as [| --- |]. *)
Theorem lone_pipe_not_stable :
  fix_tables_in_content (lit "|") = Some (lit "|  |") /\
  fix_tables_in_content (lit "|  |") = Some (lit "| --- |") /\
  (out1 <- fix_tables_in_content (lit "|") ;; fix_tables_in_content out1)
  <> fix_tables_in_content (lit "|").
Proof. split; [|split]; [reflexivity|reflexivity|discriminate]. Qed.

(** X16.  Away from lone pipes the transform is idempotent: on a
    document none of whose lines is a lone pipe, a pass over the output
    of a pass returns that output. *)
Theorem idempotent_without_lone_pipe (content out : str) :
  no_lone_pipe (split newline content) = true ->
  fix_tables_in_content content = Some out ->
  fix_tables_in_content out = Some out.
Proof. apply fix_tables_fixed_point. Qed.

(** X17.  On every document the second pass reaches a fixed point: no
    output line is a lone pipe. *)
Theorem stable_from_second_pass (content out1 out2 : str) :
  fix_tables_in_content content = Some out1 ->
  fix_tables_in_content out1 = Some out2 ->
  fix_tables_in_content out2 = Some out2.
Proof.
  intros H1. apply fix_tables_fixed_point.
  unfold fix_tables_in_content in H1. cbv zeta in H1.
  destruct (fix_loop (split newline content) []) as [e|] eqn:E;
    [|discriminate].
  simpl in H1. injection H1 as <-.
  destruct (split_output content e E) as [-> Hnp]. exact Hnp.
Qed.

(** * Further properties of the code *)

(** ** [normalize_table_row] *)

(** X1.  Normalising a row twice is the same as normalising it once. *)
Theorem normalize_table_row_idempotent (line : str) :
  normalize_table_row (normalize_table_row line) = normalize_table_row line.
Proof. apply normalize_table_row_again. Qed.

(** X2.  Normalising a line changes neither whether it is a table row
    nor the cells it parses to. *)
Theorem normalize_table_row_keeps_cells (line : str) :
  is_table_row (normalize_table_row line) = is_table_row line /\
  parse_row (normalize_table_row line) = parse_row line.
Proof.
  split; [apply normalize_table_row_is_row|apply normalize_table_row_parse].
Qed.

(** X3.  A table row is normalised to a pipe, then each of its cells,
    trimmed, between two single spaces and followed by a pipe; a row
    without cells is normalised to a lone pipe. *)
Theorem normalize_table_row_shape (line : str) :
  is_table_row line = true ->
  normalize_table_row line
  = join [pipe] ([] :: List.map spaced (parse_row line) ++ [[]]) /\
  normalize_table_row line
  = pipe :: concat (List.map (fun cell => spaced cell ++ [pipe])
                             (parse_row line)).
Proof.
  intros H. rewrite normalize_table_row_cells by exact H.
  split; [reflexivity|].
  rewrite framed_shape. generalize (parse_row line) as cells.
  intros [|c cells]; [reflexivity|]. cbv iota beta.
  change (List.map spaced (c :: cells))
    with (spaced c :: List.map spaced cells) at 1.
  cbv iota beta. f_equal.
  revert c. induction cells as [|d cells IH]; intros c.
  - cbn [List.map join concat]. rewrite app_nil_r. reflexivity.
  - change (join [pipe] (List.map spaced (c :: d :: cells)))
      with (spaced c ++ [pipe] ++ join [pipe] (List.map spaced (d :: cells))).
    change (concat (List.map (fun cell => spaced cell ++ [pipe])
                             (c :: d :: cells)))
      with ((spaced c ++ [pipe])
              ++ concat (List.map (fun cell => spaced cell ++ [pipe])
                                  (d :: cells))).
    rewrite <- IH, <- !app_assoc. reflexivity.
Qed.

Lemma normalize_table_row_shape_witness :
  normalize_table_row (lit "  |a |  b c||  ")
  = join [pipe] ([] :: List.map spaced (parse_row (lit "  |a |  b c||  "))
                    ++ [[]]) /\
  normalize_table_row (lit "  |a |  b c||  ")
  = pipe :: concat (List.map (fun cell => spaced cell ++ [pipe])
                             (parse_row (lit "  |a |  b c||  "))).
Proof.
  apply (normalize_table_row_shape (lit "  |a |  b c||  ")). reflexivity.
Defined.

(** X4.  On a block of one row that has a cell and no cell made only of
    dashes and colons, [align_table] returns the normalised row. *)
Theorem align_single_row_is_normalize (line : str) :
  is_table_row line = true ->
  parse_row line <> [] ->
  forallb (fun cell => negb (is_sep_cell cell)) (parse_row line) = true ->
  align_table [line] = Some [normalize_table_row line].
Proof.
  intros Hrow Hne Hcells. rewrite align_table_aligned.
  rewrite single_row_aligned by assumption.
  rewrite join_cells_framed by exact Hne.
  rewrite normalize_table_row_cells by exact Hrow. reflexivity.
Qed.

Lemma align_single_row_is_normalize_witness :
  align_table [lit " |Name |  Age|"]
  = Some [normalize_table_row (lit " |Name |  Age|")].
Proof.
  apply (align_single_row_is_normalize (lit " |Name |  Age|"));
    [reflexivity|discriminate|reflexivity].
Defined.

(** ** Row recognition *)

(** X5.  [is_separator_row] holds exactly of the table rows whose raw
    cells, the strings between the pipes, hold nothing but dashes,
    colons and spaces. *)
Theorem is_separator_row_iff (line : str) :
  is_separator_row line = true <->
  is_table_row line = true /\
  Forall (fun raw => Forall (fun c => c = dash \/ c = colon \/ c = space) raw)
         (slice_1_m1 (split pipe (strip line))).
Proof.
  assert (Hchar : forall c,
             existsb (N.eqb c) (lit "-: ") = true <->
             c = dash \/ c = colon \/ c = space).
  { intros c. change (lit "-: ") with [dash; colon; space]. cbn [existsb].
    rewrite !orb_true_iff, !N.eqb_eq. intuition discriminate. }
  rewrite is_separator_row_cells, andb_true_iff.
  split; intros [Hr Hc]; (split; [exact Hr|]).
  - rewrite forallb_forall in Hc. apply Forall_forall. intros raw Hraw.
    specialize (Hc raw Hraw). unfold all_in in Hc.
    rewrite forallb_forall in Hc. apply Forall_forall. intros c Hin.
    apply Hchar, Hc, Hin.
  - rewrite Forall_forall in Hc. apply forallb_forall. intros raw Hraw.
    specialize (Hc raw Hraw). rewrite Forall_forall in Hc.
    unfold all_in. apply forallb_forall. intros c Hin.
    apply Hchar, Hc, Hin.
Qed.

(** X6.  Whitespace before and after a line does not matter to
    [is_table_row], to [is_separator_row] or to the cells the line is
    parsed to. *)
Theorem surrounding_whitespace_ignored (a b line : str) :
  forallb is_space a = true -> forallb is_space b = true ->
  is_table_row (a ++ line ++ b) = is_table_row line /\
  is_separator_row (a ++ line ++ b) = is_separator_row line /\
  parse_row (a ++ line ++ b) = parse_row line.
Proof. apply row_functions_padded. Qed.

Lemma surrounding_whitespace_ignored_witness :
  is_table_row (lit "   " ++ lit "|-|:-:|" ++ lit "  ")
  = is_table_row (lit "|-|:-:|") /\
  is_separator_row (lit "   " ++ lit "|-|:-:|" ++ lit "  ")
  = is_separator_row (lit "|-|:-:|") /\
  parse_row (lit "   " ++ lit "|-|:-:|" ++ lit "  ")
  = parse_row (lit "|-|:-:|").
Proof.
  apply (surrounding_whitespace_ignored (lit "   ") (lit "  ") (lit "|-|:-:|"));
    reflexivity.
Defined.

(** ** [align_table] *)

(** X7.  Two blocks whose rows parse to the same cells are aligned to
    the same lines: the spacing of the input rows does not show in the
    output. *)
Theorem align_table_depends_on_cells (lines1 lines2 : list str) :
  List.map parse_row lines1 = List.map parse_row lines2 ->
  align_table lines1 = align_table lines2.
Proof. apply align_table_by_cells. Qed.

Lemma align_table_depends_on_cells_witness :
  align_table [lit "|a|bb|"; lit "|-|-|"]
  = align_table [lit "  | a |   bb |"; lit "|  -  |-|  "].
Proof.
  apply (align_table_depends_on_cells
           [lit "|a|bb|"; lit "|-|-|"]
           [lit "  | a |   bb |"; lit "|  -  |-|  "]).
  reflexivity.
Defined.

(** X8.  All the lines [align_table] returns for a block have the same
    number of characters: 4 when the block has no column, and otherwise
    the sum of the column widths, plus three per column, plus one. *)
Theorem aligned_lines_same_length (line : str) (lines : list str) :
  exists b aligned,
    align_trace (line :: lines) = Some b /\
    align_table (line :: lines) = Some aligned /\
    Forall (fun out => length out = line_width (block_widths b)) aligned.
Proof.
  eexists. eexists. split; [apply align_trace_val|].
  split; [apply align_table_aligned|].
  apply aligned_val_line_width.
Qed.

(** X9.  In a block with at least one column, every aligned line parses
    back to the cells of its row, padded row included: a cell that is
    not made only of dashes and colons is read back as it was, and one
    that is is read back as such a cell. *)
Theorem aligned_cells_read_back (table_lines : list str) (b : block) :
  align_trace table_lines = Some b ->
  block_widths b <> [] ->
  exists aligned,
    align_table table_lines = Some aligned /\
    Forall2 (fun row out => Forall2 kept row (parse_row out))
            (block_rows b) aligned.
Proof.
  intros Hb Hw. pose proof (align_table_of_trace _ _ Hb) as Ha.
  apply align_trace_inv in Hb. subst b. simpl in *.
  eexists. split; [exact Ha|].
  apply (aligned_val_kept table_lines).
  pose proof (col_widths_val_length (parse_rows table_lines)) as Hlen.
  destruct (col_widths_val (parse_rows table_lines)); [congruence|].
  simpl in Hlen. lia.
Qed.

Lemma aligned_cells_read_back_witness :
  exists aligned,
    align_table [lit "|x y|-|"; lit "|:-:|"] = Some aligned /\
    Forall2 (fun row out => Forall2 kept row (parse_row out))
            [[lit "x y"; lit "-"]; [lit ":-:"; []]] aligned.
Proof.
  apply (aligned_cells_read_back
           [lit "|x y|-|"; lit "|:-:|"]
           (Block [[lit "x y"; lit "-"]; [lit ":-:"; []]] [3; 3]
                  [[lit "x y"; lit "---"]; [lit ":-:"; lit "---"]]));
    [reflexivity|discriminate].
Defined.

(** X10.  Aligning the lines [align_table] returned for a block in
    which some row has a cell returns them unchanged. *)
Theorem align_table_fixed_point (table_lines aligned : list str)
  (line : str) :
  align_table table_lines = Some aligned ->
  In line table_lines ->
  parse_row line <> [] ->
  align_table aligned = Some aligned.
Proof. apply align_table_again. Qed.

Lemma align_table_fixed_point_witness :
  align_table [lit "| a   | bb  |"; lit "| --- | --- |"; lit "| c   | --- |"]
  = Some [lit "| a   | bb  |"; lit "| --- | --- |"; lit "| c   | --- |"].
Proof.
  apply (align_table_fixed_point
           [lit "|a|bb|"; lit "|-|-|"; lit "|c|"]
           [lit "| a   | bb  |"; lit "| --- | --- |"; lit "| c   | --- |"]
           (lit "|c|"));
    [reflexivity|right; right; left; reflexivity|discriminate].
Defined.

(** ** [fix_tables_in_content] *)

(** X11.  A document in which no line is a table row is returned as it
    is. *)
Theorem document_without_rows_unchanged (content : str) :
  forallb (fun line => negb (is_table_row line)) (split newline content)
  = true ->
  fix_tables_in_content content = Some content.
Proof.
  intros H. unfold fix_tables_in_content. cbv zeta.
  rewrite fix_loop_no_rows by exact H. simpl. rewrite join_split.
  reflexivity.
Qed.

Lemma document_without_rows_unchanged_witness :
  fix_tables_in_content (lit "# Title

a | b
 | not a row
") = Some (lit "# Title

a | b
 | not a row
").
Proof.
  apply (document_without_rows_unchanged (lit "# Title

a | b
 | not a row
")). reflexivity.
Defined.

(** X12.  The output has as many table rows as the input. *)
Theorem table_row_count_preserved (content : str) :
  exists out,
    fix_tables_in_content content = Some out /\
    length (filter is_table_row (split newline out))
    = length (filter is_table_row (split newline content)).
Proof.
  destruct (fix_loop_reflowed (split newline content) []) as [e [He Hre]].
  simpl in He. exists (join [newline] e).
  split; [unfold fix_tables_in_content; rewrite He; reflexivity|].
  destruct (split_output content e He) as [-> _].
  apply reflowed_rows_count, Hre.
Qed.

(** X13.  In the output no table row is next to a line that is neither
    a table row nor blank. *)
Theorem output_well_spaced (content : str) :
  exists out,
    fix_tables_in_content content = Some out /\
    well_spaced (split newline out) = true.
Proof.
  destruct (fix_loop_spaced (split newline content) [] eq_refl eq_refl)
    as [e [He Hs]].
  simpl in He, Hs. exists (join [newline] e).
  split; [unfold fix_tables_in_content; rewrite He; reflexivity|].
  destruct (split_output content e He) as [-> _]. exact Hs.
Qed.

(** X14.  A document that is already well spaced keeps its number of
    lines: no blank line is added. *)
Theorem well_spaced_document_keeps_line_count (content : str) :
  well_spaced (split newline content) = true ->
  exists out,
    fix_tables_in_content content = Some out /\
    length (split newline out) = length (split newline content).
Proof.
  intros H.
  destruct (fix_loop_well_spaced_input (split newline content) H [])
    as [e [He Hlen]]; [reflexivity|].
  simpl in He. exists (join [newline] e).
  split; [unfold fix_tables_in_content; rewrite He; reflexivity|].
  destruct (split_output content e He) as [-> _]. exact Hlen.
Qed.

Lemma well_spaced_document_keeps_line_count_witness :
  exists out,
    fix_tables_in_content (lit "intro

|a|b|
|-|-|
   
outro") = Some out /\
    length (split newline out) = 6.
Proof.
  apply (well_spaced_document_keeps_line_count (lit "intro

|a|b|
|-|-|
   
outro")). reflexivity.
Defined.

(** X15.  A document that ends with a newline is turned into one that
    ends with a newline. *)
Theorem trailing_newline_preserved (s : str) :
  exists o, fix_tables_in_content (s ++ [newline]) = Some (o ++ [newline]).
Proof.
  unfold fix_tables_in_content. cbv zeta. rewrite split_snoc_sep.
  destruct (fix_loop_snoc [] (split newline s) nil_not_table_row [])
    as [e [He Hne]].
  simpl in He. exists (join [newline] e).
  match goal with
  | |- bind ?m _ = _ =>
      replace m with (Some (e ++ [[]])) by (symmetry; exact He)
  end.
  simpl bind.
  rewrite join_snoc by (apply Hne, split_nonempty).
  rewrite app_nil_r. reflexivity.
Qed.

(** A document with a table and no lone pipe: its output is returned
    unchanged by a further pass. *)
Lemma idempotent_without_lone_pipe_witness :
  fix_tables_in_content (lit "intro

| a   | b   |
| --- | --- |

end") = Some (lit "intro

| a   | b   |
| --- | --- |

end").
Proof.
  apply (idempotent_without_lone_pipe (lit "intro
|a|b|
|-|
end") (lit "intro

| a   | b   |
| --- | --- |

end")); reflexivity.
Defined.

(** The lone pipe: the output of the second pass is returned unchanged
    by a third. *)
Lemma stable_from_second_pass_witness :
  fix_tables_in_content (lit "| --- |") = Some (lit "| --- |").
Proof.
  apply (stable_from_second_pass (lit "|") (lit "|  |") (lit "| --- |"));
    reflexivity.
Defined.

(** ** The inner loop *)

(** X18.  [collect_table] cuts the lines into the longest run of table
    rows at their front and the rest: the run holds table rows only, and
    the rest is empty or starts with a line that is not a table row. *)
Theorem collect_table_longest_prefix (lines : list str) :
  lines = fst (collect_table lines) ++ snd (collect_table lines) /\
  forallb is_table_row (fst (collect_table lines)) = true /\
  match snd (collect_table lines) with
  | [] => True
  | next :: _ => is_table_row next = false
  end.
Proof.
  split; [apply collect_table_split|].
  split; [apply collect_table_rows|].
  pose proof (collect_table_ends lines) as H.
  destruct (snd (collect_table lines)); [exact I|].
  simpl in H. apply negb_true_iff, H.
Qed.

(** ** Rows of the output *)

(** X19.  Every table row of the output has at least one cell: no line
    of the output is a lone pipe. *)
Theorem output_rows_have_cells (content : str) :
  exists out,
    fix_tables_in_content content = Some out /\
    forallb (fun line =>
               negb (is_table_row line) || negb (length (parse_row line) =? 0))
            (split newline out) = true.
Proof.
  destruct (fix_loop_reflowed (split newline content) []) as [e [He Hre]].
  simpl in He. exists (join [newline] e).
  split; [unfold fix_tables_in_content; rewrite He; reflexivity|].
  destruct (split_output content e He) as [-> Hnp].
  unfold no_lone_pipe in Hnp. rewrite forallb_forall in Hnp.
  apply forallb_forall. intros line Hin. specialize (Hnp line Hin).
  apply negb_true_iff in Hnp.
  destruct (is_table_row line) eqn:Hrow; [|reflexivity].
  pose proof (table_row_has_cell line Hrow Hnp) as Hne.
  destruct (parse_row line); [congruence|reflexivity].
Qed.

(** ** The cells of the lines returned *)

(** X20.  In a block with at least one column, every line [align_table]
    returns splits at its pipes into as many cells as the block has
    columns, the largest number of cells of an input row, and the cell
    of each column, with the space on each side, is two characters wider
    than the column. *)
Theorem aligned_lines_uniform (table_lines : list str) (b : block) :
  align_trace table_lines = Some b ->
  block_widths b <> [] ->
  exists aligned,
    align_table table_lines = Some aligned /\
    length aligned = length table_lines /\
    length (block_widths b)
    = list_max (List.map (@length str) (parse_rows table_lines)) /\
    Forall (fun out =>
              strip out = out /\
              List.map (@length char) (slice_1_m1 (split pipe out))
              = List.map (fun w => w + 2) (block_widths b) /\
              length (parse_row out) = length (block_widths b))
           aligned.
Proof.
  intros Hb Hw. pose proof (align_table_of_trace _ _ Hb) as Ha.
  apply align_trace_inv in Hb. subst b. simpl in *.
  eexists. split; [exact Ha|].
  split; [apply (aligned_val_length table_lines)|].
  split; [apply col_widths_val_length|].
  apply (aligned_val_raw_cells table_lines).
  pose proof (col_widths_val_length (parse_rows table_lines)) as Hlen.
  destruct (col_widths_val (parse_rows table_lines)); [congruence|].
  simpl in Hlen. lia.
Qed.

Lemma aligned_lines_uniform_witness :
  exists aligned,
    align_table [lit "|a|bb|"; lit "|-|"] = Some aligned /\
    length aligned = 2 /\
    2 = list_max (List.map (@length str)
                           (parse_rows [lit "|a|bb|"; lit "|-|"])) /\
    Forall (fun out =>
              strip out = out /\
              List.map (@length char) (slice_1_m1 (split pipe out))
              = List.map (fun w => w + 2) [3; 3] /\
              length (parse_row out) = 2)
           aligned.
Proof.
  apply (aligned_lines_uniform
           [lit "|a|bb|"; lit "|-|"]
           (Block [[lit "a"; lit "bb"]; [lit "-"; []]] [3; 3]
                  [[lit "a  "; lit "bb "]; [lit "---"; lit "---"]]));
    [reflexivity|discriminate].
Defined.
